(** * slogdriver: the field-composition engine of the Cloud Logging handler

    A shallow embedding of [Handler] and its methods, of the label chain
    (labels.go) and of the trace carrier (trace.go).

    - The goldjson [LineWriter] is modelled by the sequence of calls made
      on it; what the encoder does with a call (escaping, buffering) is not
      part of this development, only which calls fail.
    - Go values that are mutated through a pointer or shared through a slice
      live in an explicit [Heap]: encoders, the backing arrays of
      [attrBuilders], and the [err] variable captured by the closure that
      [WithAttrs] appends.
    - A run-time panic (nil dereference, index out of range, call of a nil
      func) is the result [None]. *)

From stdpp Require Import base option list strings gmap.
From Stdlib Require Import ZArith.

Set Default Proof Using "Type".
Set Warnings "-register-all".

(** ** Errors: [error], [errors.New], [errors.Join] *)

Inductive err : Type :=
  | errorString (s : string)          (* errors.New, fmt.Errorf, a collaborator's error *)
  | joinError (errs : list err).      (* the wrapper built by errors.Join *)

(** A Go [error] is an interface value: [None] is [nil]. *)
Definition error : Type := option err.

(** [errors.Join(errs...)]: nil when every argument is nil, otherwise a
    [joinError] holding the non-nil arguments in order. *)
Definition errors_Join (errs : list error) : error :=
  match omap id errs with
  | [] => None
  | es => Some (joinError es)
  end.

(** The messages an error wraps, left to right. *)
Fixpoint err_leaves (e : err) : list string :=
  match e with
  | errorString s => [s]
  | joinError es =>
      (fix go (es : list err) : list string :=
         match es with
         | [] => []
         | e :: es => err_leaves e ++ go es
         end) es
  end.

Definition error_leaves (e : error) : list string :=
  match e with
  | None => []
  | Some e => err_leaves e
  end.

(** ** slog values and attributes *)

(** [time.Time]: the wall-clock instant and the optional monotonic reading. *)
Record Time : Type := mkTime { unixNano : Z; monotonic : option Z }.

(** [t.Round(0)] strips the monotonic reading and keeps the instant. *)
Definition Time_Round0 (t : Time) : Time :=
  {| unixNano := unixNano t; monotonic := None |}.

(** A value of kind [KindAny], seen through the two type assertions that
    [addAny] performs on it. *)
Record Any : Type := mkAny {
  any_repr : string;              (* the value itself, as Go would print it *)
  any_error : option string;      (* [Some (val.Error())] when val implements error *)
  any_marshaler : bool            (* val implements json.Marshaler *)
}.

(** [slog.Value] after [Resolve()] (a LogValuer is replaced by the value
    it yields before [addAttr] switches on the kind), and [slog.Attr].
    [BadValue] is a value whose kind is none of the kinds slog declares. *)
Inductive Value : Type :=
  | GroupValue (attrs : list Attr)
  | StringValue (s : string)
  | Int64Value (n : Z)
  | Uint64Value (n : Z)
  | Float64Value (bits : Z)       (* the IEEE 754 bits, as slog stores them *)
  | BoolValue (b : bool)
  | DurationValue (d : Z)         (* nanoseconds *)
  | TimeValue (t : Time)
  | AnyValue (v : Any)
  | BadValue (kind : Z)
with Attr : Type :=
  | mkAttr (Key : string) (Val : Value).

Definition Key (a : Attr) : string := match a with mkAttr k _ => k end.
Definition Val (a : Attr) : Value := match a with mkAttr _ v => v end.

(** ** The goldjson line writer, as the calls made on it *)

Inductive Event : Type :=
  | AddString (key value : string)
  | AddInt64 (key : string) (n : Z)
  | AddUint64 (key : string) (n : Z)
  | AddFloat64 (key : string) (bits : Z)
  | AddBool (key : string) (b : bool)
  | AddTime (key : string) (t : Time)
  | AddMarshal (key : string) (v : Any)
  | StartRecord (key : string)
  | EndRecord
  | AddStaticFields (staticFields : list Event).

Definition Line : Type := list Event.

(** An [io.Writer], by its answer to the write of a finished line. *)
Definition Writer : Type := Line → error.

Record LineWriter : Type := mkLineWriter {
  lw_w : Writer;            (* where [End] sends the line *)
  lw_buf : Line             (* the calls so far *)
}.

Definition emit (l : LineWriter) (e : Event) : LineWriter :=
  {| lw_w := lw_w l; lw_buf := lw_buf l ++ [e] |}.

(** [l.End()]: hands the line to the writer and returns its error. *)
Definition End (l : LineWriter) : error := lw_w l (lw_buf l).

(** ** Collaborators outside the repository *)

(** goldjson: which calls on a line writer fail, and the writer behind
    the static fields that [NewStaticFields] returns. *)
Class Goldjson : Type := {
  AddTime_error : Time → error;        (* the error LineWriter.AddTime returns *)
  AddMarshal_error : Any → error;      (* the error LineWriter.AddMarshal returns *)
  StaticFields_w : Writer              (* what End answers on a static-fields writer *)
}.

Record Frame : Type := mkFrame { File : string; FrameLine : Z; Function : string }.

(** The Go runtime: [runtime.CallersFrames([]uintptr{pc}).Next()]. *)
Class Runtime : Type := {
  CallersFrames : Z → Frame
}.

(** ** Constants of the package and of log/slog *)

Definition fieldMessage : string := "message".
Definition fieldTimestamp : string := "timestamp".
Definition fieldSeverity : string := "severity".
Definition fieldSourceLocation : string := "logging.googleapis.com/sourceLocation".
Definition fieldSourceFile : string := "file".
Definition fieldSourceLine : string := "line".
Definition fieldSourceFunction : string := "function".
Definition fieldTraceID : string := "logging.googleapis.com/trace".
Definition fieldTraceSpanID : string := "logging.googleapis.com/spanId".
Definition fieldTraceSampled : string := "logging.googleapis.com/trace_sampled".
Definition fieldLabels : string := "logging.googleapis.com/labels".

Definition LevelDebug : Z := (-4)%Z.
Definition LevelInfo : Z := 0%Z.
Definition LevelWarn : Z := 4%Z.
Definition LevelError : Z := 8%Z.

(** ** Attribute dispatch: addAttr, addGroup, addAny *)

Section Dispatch.
Context {G : Goldjson}.

(** The loop [for _, a := range attrs { err = errors.Join(err, h.addAttr(l, a)) }],
    shared by [addGroup], [addAttrsRaw] and [WithAttrs]. *)
Definition range_addAttr (addAttr : LineWriter → Attr → error * LineWriter) :
    list Attr → error → LineWriter → error * LineWriter :=
  fix loop attrs err l :=
    match attrs with
    | [] => (err, l)
    | a :: attrs =>
        let '(e, l) := addAttr l a in
        loop attrs (errors_Join [err; e]) l
    end.

Definition addAny (l : LineWriter) (a : Attr) (val : Any) : error * LineWriter :=
  let jm := any_marshaler val in
  match any_error val with
  | Some msg =>
      if negb jm
      then (None, emit l (AddString (Key a) msg))
      else (AddMarshal_error val, emit l (AddMarshal (Key a) val))
  | None => (AddMarshal_error val, emit l (AddMarshal (Key a) val))
  end.

(** [fmt.Errorf("bad kind: %s", v.Kind())]: [Kind.String] prints every
    undeclared kind the same way. *)
Definition bad_kind (kind : Z) : error :=
  Some (errorString "bad kind: <unknown slog.Kind>").

(** The body of [addGroup], over the [addAttr] it calls back into. *)
Definition addGroup_body (addAttr : LineWriter → Attr → error * LineWriter)
    (l : LineWriter) (a : Attr) (attrs : list Attr) : error * LineWriter :=
  match attrs with
  | [] => (None, l)                                   (* len(attrs) == 0 *)
  | _ :: _ =>
      let l := emit l (StartRecord (Key a)) in
      let '(err, l) := range_addAttr addAttr attrs None l in
      (err, emit l EndRecord)                         (* defer l.EndRecord() *)
  end.

Fixpoint addAttr (l : LineWriter) (a : Attr) {struct a} : error * LineWriter :=
  match a with
  | mkAttr key v =>
      match v with
      | GroupValue attrs => addGroup_body addAttr l a attrs
      | StringValue s => (None, emit l (AddString key s))
      | Int64Value n => (None, emit l (AddInt64 key n))
      | Uint64Value n => (None, emit l (AddUint64 key n))
      | Float64Value f => (None, emit l (AddFloat64 key f))
      | BoolValue b => (None, emit l (AddBool key b))
      | DurationValue d => (None, emit l (AddInt64 key d))
      | TimeValue t => (AddTime_error t, emit l (AddTime key t))
      | AnyValue val => addAny l a val
      | BadValue kind => (bad_kind kind, l)
      end
  end.

Definition addGroup : LineWriter → Attr → list Attr → error * LineWriter :=
  addGroup_body addAttr.

End Dispatch.

(** ** context.Context, labels.go and trace.go *)

Record Label : Type := NewLabel { LabelKey : string; LabelValue : string }.

(** [*labelContainer]: the nil pointer, or a node and its parent. Nodes are
    never written after [AddLabels] builds them. *)
Inductive labelContainer : Type :=
  | nilContainer
  | mkLabelContainer (Labels : list Label) (Parent : labelContainer).

Record Trace : Type := mkTrace { ID : string; SpanID : string; Sampled : bool }.

(** The zero value of [Trace]. *)
Definition zeroTrace : Trace := {| ID := ""; SpanID := ""; Sampled := false |}.

(** Context keys: the two unexported key types of the package, and any key
    of another package. *)
Inductive ctxKey : Type :=
  | labelsContextKeyT
  | traceContextKeyT
  | foreignKey (name : string).

#[global] Instance ctxKey_eq_dec : EqDecision ctxKey.
Proof. solve_decision. Defined.

Inductive ctxValue : Type :=
  | labelsValue (v : labelContainer)
  | traceValue (v : Trace)
  | foreignValue (v : string).

Inductive Context : Type :=
  | Background
  | WithValue (parent : Context) (key : ctxKey) (val : ctxValue).

(** [ctx.Value(key)]: the nearest binding of the key, or nil. *)
Fixpoint ctx_Value (ctx : Context) (key : ctxKey) : option ctxValue :=
  match ctx with
  | Background => None
  | WithValue parent k v => if decide (k = key) then Some v else ctx_Value parent key
  end.

(** [ctx.Value(labelsContextKeyT{})] asserted to a labelContainer pointer;
    nil when the assertion fails. *)
Definition labelsFromContext (ctx : Context) : labelContainer :=
  match ctx_Value ctx labelsContextKeyT with
  | Some (labelsValue v) => v
  | _ => nilContainer
  end.

Definition AddLabels (ctx : Context) (labels : list Label) : Context :=
  WithValue ctx labelsContextKeyT
    (labelsValue (mkLabelContainer labels (labelsFromContext ctx))).

(** [Iterate]: the callback updates the state it closes over, here [S]. *)
Fixpoint Iterate {S : Type} (l : labelContainer) (f : Label → S → S) (s : S) : S :=
  match l with
  | nilContainer => s
  | mkLabelContainer labels parent =>
      foldl (λ s label, f label s) (Iterate parent f s) labels
  end.

(** [ctx.Value(traceContextKeyT{})] asserted to a [Trace]; the zero value
    when the assertion fails. *)
Definition traceFromContext (ctx : Context) : Trace :=
  match ctx_Value ctx traceContextKeyT with
  | Some (traceValue v) => v
  | _ => zeroTrace
  end.

Definition Trace_Context (trace : Trace) (ctx : Context) : Context :=
  WithValue ctx traceContextKeyT (traceValue trace).

(** ** The heap *)

(** [goldjson.Encoder]: its writer and the keys declared with [PrepareKey]. *)
Record Encoder : Type := mkEncoder { enc_w : Writer; enc_keys : list string }.

(** The closures stored in [attrBuilders], by the variables they capture:
    the one [WithAttrs] builds captures [staticFields] and the variable
    [err] (an address: the closure reads the variable when it runs); the
    one [WithGroup] builds captures [name]. [nilFunc] is the zero value of
    the func type, which [make] fills fresh arrays with. *)
Inductive AttrBuilder : Type :=
  | nilFunc
  | staticBuilder (staticFields : Line) (err : nat)
  | groupBuilder (name : string).

(** A slice header; [s_array = None] only for the nil slice. *)
Record Slice : Type := mkSlice { s_array : option nat; s_len : nat; s_cap : nat }.

Definition nilSlice : Slice := {| s_array := None; s_len := 0; s_cap := 0 |}.

Record Heap : Type := mkHeap {
  encoders : list Encoder;
  arrays : list (list AttrBuilder);
  errs : list error
}.

Definition emptyHeap : Heap := {| encoders := []; arrays := []; errs := [] |}.

(** Code that allocates or writes: a heap in, a result and a heap out, or
    a panic. *)
Definition Go (A : Type) : Type := Heap → option (A * Heap).

#[global] Instance Go_ret : MRet Go := λ A a σ, Some (a, σ).
#[global] Instance Go_bind : MBind Go := λ A B f m σ,
  match m σ with
  | Some (a, σ) => f a σ
  | None => None
  end.

Definition new_encoder (e : Encoder) : Go nat := λ σ,
  Some (length (encoders σ),
        {| encoders := encoders σ ++ [e]; arrays := arrays σ; errs := errs σ |}).

Definition load_encoder (p : nat) : Go Encoder := λ σ,
  e ← encoders σ !! p; Some (e, σ).

Definition store_encoder (p : nat) (e : Encoder) : Go unit := λ σ,
  _ ← encoders σ !! p;
  Some (tt, {| encoders := <[p:=e]> (encoders σ); arrays := arrays σ; errs := errs σ |}).

Definition new_array (a : list AttrBuilder) : Go nat := λ σ,
  Some (length (arrays σ),
        {| encoders := encoders σ; arrays := arrays σ ++ [a]; errs := errs σ |}).

Definition load_array (p : nat) : Go (list AttrBuilder) := λ σ,
  a ← arrays σ !! p; Some (a, σ).

Definition store_array (p : nat) (a : list AttrBuilder) : Go unit := λ σ,
  _ ← arrays σ !! p;
  Some (tt, {| encoders := encoders σ; arrays := <[p:=a]> (arrays σ); errs := errs σ |}).

Definition new_err (e : error) : Go nat := λ σ,
  Some (length (errs σ),
        {| encoders := encoders σ; arrays := arrays σ; errs := errs σ ++ [e] |}).

Definition store_err (p : nat) (e : error) : Go unit := λ σ,
  _ ← errs σ !! p;
  Some (tt, {| encoders := encoders σ; arrays := arrays σ; errs := <[p:=e]> (errs σ) |}).

(** *** goldjson.Encoder *)

Definition NewEncoder (w : Writer) : Go nat :=
  new_encoder {| enc_w := w; enc_keys := [] |}.

Definition PrepareKey (p : nat) (key : string) : Go unit :=
  e ← load_encoder p;
  store_encoder p {| enc_w := enc_w e; enc_keys := enc_keys e ++ [key] |}.

Definition Clone (p : nat) : Go nat :=
  e ← load_encoder p;
  new_encoder e.

(** [encoder.NewLine()] only reads the encoder. *)
Definition NewLine (σ : Heap) (p : nat) : option LineWriter :=
  e ← encoders σ !! p;
  Some {| lw_w := enc_w e; lw_buf := [] |}.

(** [goldjson.NewStaticFields()]: the writer that fills the static fields. *)
Definition NewStaticFields {G : Goldjson} : LineWriter :=
  {| lw_w := StaticFields_w; lw_buf := [] |}.

(** *** Slices of attrBuilders: make, append, index *)

(** [make([]T, 0, cap)] *)
Definition make (cap : nat) : Go Slice :=
  p ← new_array (replicate cap nilFunc);
  mret {| s_array := Some p; s_len := 0; s_cap := cap |}.

(** The elements [slice...] denotes. *)
Definition slice_elems (σ : Heap) (s : Slice) : option (list AttrBuilder) :=
  match s_array s with
  | None => Some []
  | Some p => a ← arrays σ !! p; Some (take (s_len s) a)
  end.

(** [append(s, values...)]: within capacity the values are written into the
    array [s] points to, which every slice on that array shares; beyond it
    the elements move to a new array (whose capacity the runtime may round
    up; here it is the length). *)
Definition append (s : Slice) (values : list AttrBuilder) : Go Slice := λ σ,
  let n := s_len s + length values in
  if decide (n ≤ s_cap s) then
    match s_array s with
    | None => Some (s, σ)
    | Some p =>
        (a ← load_array p;
         _ ← store_array p (take (s_len s) a ++ values ++ drop n a);
         mret {| s_array := Some p; s_len := n; s_cap := s_cap s |}) σ
    end
  else
    old ← slice_elems σ s;
    (p ← new_array (old ++ values);
     mret {| s_array := Some p; s_len := n; s_cap := n |}) σ.

(** [s[i]] *)
Definition index (σ : Heap) (s : Slice) (i : nat) : option AttrBuilder :=
  if decide (i < s_len s) then
    p ← s_array s; a ← arrays σ !! p; a !! i
  else None.

Definition cloneSlice (slice : Slice) (extraCap : nat) : Go Slice := λ σ,
  elems ← slice_elems σ slice;
  (s ← make (s_len slice + extraCap);
   append s elems) σ.

Definition cloneAppend (slice : Slice) (values : list AttrBuilder) : Go Slice :=
  s ← cloneSlice slice (length values);
  append s values.

(** ** The handler *)

Record Config : Type := mkConfig {
  ProjectID : string;
  Level : option Z              (* a slog.Leveler, or nil *)
}.

Record Handler : Type := mkHandler {
  encoder : nat;                (* *goldjson.Encoder *)
  config : Config;
  attrBuilders : Slice
}.

(** [slog.Record] *)
Record Record_ : Type := mkRecord {
  r_Time : Time;
  r_Message : string;
  r_Level : Z;
  r_PC : Z;
  r_Attrs : list Attr           (* what r.Attrs visits, in order *)
}.

(** The continuation a builder receives as [next]. The line writer is one
    object that every closure of a [Handle] call writes to; its state is
    passed along. *)
Definition Next : Type := Context → LineWriter → option (error * LineWriter).

Definition NewHandler (w : Writer) (config : Config) : Go Handler :=
  enc ← NewEncoder w;
  PrepareKey enc fieldMessage;;
  PrepareKey enc fieldTimestamp;;
  PrepareKey enc fieldSeverity;;
  PrepareKey enc fieldSourceLocation;;
  PrepareKey enc fieldSourceFile;;
  PrepareKey enc fieldSourceLine;;
  PrepareKey enc fieldSourceFunction;;
  PrepareKey enc fieldTraceID;;
  PrepareKey enc fieldTraceSpanID;;
  PrepareKey enc fieldTraceSampled;;
  PrepareKey enc fieldLabels;;
  mret {| encoder := enc; config := config; attrBuilders := nilSlice |}.

Definition Enabled (h : Handler) (ctx : Context) (l : Z) : bool :=
  let minLevel := LevelInfo in
  let minLevel := match Level (config h) with
                  | Some level => level
                  | None => minLevel
                  end in
  (l >=? minLevel)%Z.

Section Handler.
Context {G : Goldjson} {R : Runtime}.

Definition addMessage (h : Handler) (ctx : Context) (l : LineWriter) (r : Record_) : LineWriter :=
  emit l (AddString fieldMessage (r_Message r)).

(** The error of [AddTime] is not looked at here. *)
Definition addTimestamp (h : Handler) (ctx : Context) (l : LineWriter) (r : Record_) : LineWriter :=
  let time := Time_Round0 (r_Time r) in
  emit l (AddTime fieldTimestamp time).

Definition severity (level : Z) : string :=
  if (level >=? LevelError)%Z then "ERROR"
  else if (level >=? LevelWarn)%Z then "WARN"
  else if (level >=? LevelInfo)%Z then "INFO"
  else "DEBUG".

Definition addSeverity (h : Handler) (ctx : Context) (l : LineWriter) (r : Record_) : LineWriter :=
  emit l (AddString fieldSeverity (severity (r_Level r))).

Definition addSourceLocation (h : Handler) (ctx : Context) (l : LineWriter) (r : Record_) : LineWriter :=
  let f := CallersFrames (r_PC r) in
  let l := emit l (StartRecord fieldSourceLocation) in
  let l := emit l (AddString fieldSourceFile (File f)) in
  let l := emit l (AddInt64 fieldSourceLine (FrameLine f)) in
  let l := emit l (AddString fieldSourceFunction (Function f)) in
  emit l EndRecord.

Definition addTrace (h : Handler) (ctx : Context) (l : LineWriter) (r : Record_) : LineWriter :=
  let trace := traceFromContext ctx in
  if decide (ID trace = "") then l
  else
    let l := emit l (AddString fieldTraceID
                       ("projects/" +:+ ProjectID (config h) +:+ "/traces/" +:+ ID trace)) in
    let l := if decide (SpanID trace ≠ "")
             then emit l (AddString fieldTraceSpanID (SpanID trace))
             else l in
    emit l (AddBool fieldTraceSampled (Sampled trace)).

(** The callback of [addLabels]; its state is [opened] and the writer. *)
Definition addLabels_visit (label : Label) (s : bool * LineWriter) : bool * LineWriter :=
  let '(opened, l) := s in
  let '(opened, l) :=
    if negb opened
    then (true, emit l (StartRecord "logging.googleapis.com/labels"))
    else (opened, l) in
  (opened, emit l (AddString (LabelKey label) (LabelValue label))).

Definition addLabels (h : Handler) (ctx : Context) (l : LineWriter) (r : Record_) : LineWriter :=
  let opened := false in
  let '(opened, l) := Iterate (labelsFromContext ctx) addLabels_visit (opened, l) in
  if opened then emit l EndRecord else l.

Definition addAttrsRaw (h : Handler) (ctx : Context) (l : LineWriter) (r : Record_) :
    error * LineWriter :=
  range_addAttr addAttr (r_Attrs r) None l.

(** Calling an element of [attrBuilders]: the bodies of the two closures. *)
Definition call_attrBuilder (σ : Heap) (f : AttrBuilder)
    (ctx : Context) (h : Handler) (l : LineWriter) (next : Next) :
    option (error * LineWriter) :=
  match f with
  | nilFunc => None
  | staticBuilder staticFields err =>
      let l := emit l (AddStaticFields staticFields) in
      '(e, l) ← next ctx l;
      err ← errs σ !! err;
      Some (errors_Join [err; e], l)
  | groupBuilder name =>
      let l := emit l (StartRecord name) in
      '(e, l) ← next ctx l;
      Some (e, emit l EndRecord)              (* defer l.EndRecord() *)
  end.

(** The loop of [addAttrs], over the values [i] ranges over. *)
Fixpoint addAttrs_loop (σ : Heap) (h : Handler) (range : list nat) (b : Next) : option Next :=
  match range with
  | [] => Some b
  | i :: range =>
      attrBuilder ← index σ (attrBuilders h) (s_len (attrBuilders h) - 1 - i);
      let next := b in
      let b : Next := λ ctx l, call_attrBuilder σ attrBuilder ctx h l next in
      addAttrs_loop σ h range b
  end.

Definition addAttrs (σ : Heap) (h : Handler) (ctx : Context) (l : LineWriter) (r : Record_) :
    option (error * LineWriter) :=
  if decide (s_len (attrBuilders h) = 0) then Some (addAttrsRaw h ctx l r)
  else
    let b : Next := λ ctx l, Some (addAttrsRaw h ctx l r) in
    b ← addAttrs_loop σ h (seq 0 (s_len (attrBuilders h))) b;
    b ctx l.

(** [Handle] returns its error; the second component is the line that
    [l.End()] handed to the encoder's writer. *)
Definition Handle (σ : Heap) (h : Handler) (ctx : Context) (r : Record_) :
    option (error * Line) :=
  l ← NewLine σ (encoder h);
  let l := addMessage h ctx l r in
  let l := addTimestamp h ctx l r in
  let l := addSeverity h ctx l r in
  let l := addSourceLocation h ctx l r in
  let l := addTrace h ctx l r in
  let l := addLabels h ctx l r in
  '(err, l) ← addAttrs σ h ctx l r;
  let err := errors_Join [err; End l] in
  Some (err, lw_buf l).

Definition WithAttrs (h : Handler) (as_ : list Attr) : Go Handler :=
  let clone := h in
  let w := NewStaticFields in
  err ← new_err None;                                   (* var err error *)
  let '(e, w) := range_addAttr addAttr as_ None w in
  store_err err e;;                                     (* the loop's assignments *)
  builders ← cloneAppend (attrBuilders h) [staticBuilder (lw_buf w) err];
  let clone := {| encoder := encoder clone; config := config clone;
                  attrBuilders := builders |} in
  store_err err (End w);;                               (* err = w.End() *)
  mret clone.

Definition WithGroup (h : Handler) (name : string) : Go Handler :=
  let clone := h in
  enc ← Clone (encoder h);
  let clone := {| encoder := enc; config := config clone;
                  attrBuilders := attrBuilders clone |} in
  PrepareKey (encoder clone) name;;
  builders ← cloneAppend (attrBuilders h) [groupBuilder name];
  let clone := {| encoder := encoder clone; config := config clone;
                  attrBuilders := builders |} in
  mret clone.

End Handler.

(** ** Reading a line back as a JSON object *)

(** The encoder turns the calls made on a line into bytes, and goldjson is
    not part of this repository. The reading below is therefore given only
    for a line on which nothing went wrong: every call succeeded, and every
    record and every buffer of static fields received a member. For any
    other line [object_of] is [None], which says nothing about its bytes. *)

Inductive Json : Type :=
  | JString (s : string)
  | JInt64 (n : Z)
  | JUint64 (n : Z)
  | JFloat64 (bits : Z)
  | JBool (b : bool)
  | JTime (t : Time)
  | JMarshal (v : Any)
  | JObject (fields : list (string * Json)).

(** The members of an object, in the order they were written. *)
Definition Fields : Type := list (string * Json).

(** Static fields are spliced into the line where they are added. *)
Fixpoint inline (e : Event) : list Event :=
  match e with
  | AddStaticFields staticFields =>
      (fix go (es : list Event) : list Event :=
         match es with
         | [] => []
         | e :: es => inline e ++ go es
         end) staticFields
  | _ => [e]
  end.

Definition inline_line (l : Line) : list Event := l ≫= inline.

(** [parse evs cur stack]: [cur] holds the members of the object being
    written, [stack] the enclosing objects and the key each was left at.
    Only a line whose calls all succeeded and whose records all received
    a member is read: where [AddTime] or [AddMarshal] returned an error, or
    a record was closed with nothing in it, what the line holds is the
    encoder's matter and no object is given. *)
Fixpoint parse {G : Goldjson} (evs : list Event) (cur : Fields)
    (stack : list (string * Fields)) : option Fields :=
  match evs with
  | [] => match stack with [] => Some cur | _ :: _ => None end
  | e :: evs =>
      match e with
      | AddString key s => parse evs (cur ++ [(key, JString s)]) stack
      | AddInt64 key n => parse evs (cur ++ [(key, JInt64 n)]) stack
      | AddUint64 key n => parse evs (cur ++ [(key, JUint64 n)]) stack
      | AddFloat64 key f => parse evs (cur ++ [(key, JFloat64 f)]) stack
      | AddBool key b => parse evs (cur ++ [(key, JBool b)]) stack
      | AddTime key t =>
          match AddTime_error t with
          | None => parse evs (cur ++ [(key, JTime t)]) stack
          | Some _ => None
          end
      | AddMarshal key v =>
          match AddMarshal_error v with
          | None => parse evs (cur ++ [(key, JMarshal v)]) stack
          | Some _ => None
          end
      | StartRecord key => parse evs [] ((key, cur) :: stack)
      | EndRecord =>
          match cur, stack with
          | _ :: _, (key, outer) :: stack => parse evs (outer ++ [(key, JObject cur)]) stack
          | _, _ => None
          end
      | AddStaticFields _ => None
      end
  end.

(** Static fields into which nothing was written are not read either. *)
Fixpoint filled (e : Event) : bool :=
  match e with
  | AddStaticFields [] => false
  | AddStaticFields staticFields => forallb filled staticFields
  | _ => true
  end.

Definition object_of {G : Goldjson} (l : Line) : option Fields :=
  if forallb filled l then parse (inline_line l) [] [] else None.

(** The object as a consumer that keeps the last occurrence of a key reads
    it (encoding/json does). *)
Definition obj_map (fs : Fields) : gmap string Json :=
  foldl (λ m kv, <[kv.1 := kv.2]> m) ∅ fs.

(** [evs] writes the members [fs] into whatever object is open, and
    leaves that object open. *)
Definition renders {G : Goldjson} (evs : list Event) (fs : Fields) : Prop :=
  ∀ rest cur stack, parse (evs ++ rest) cur stack = parse rest (cur ++ fs) stack.

(** A call other than [AddStaticFields]. *)
Definition plain (e : Event) : Prop :=
  match e with
  | AddStaticFields _ => False
  | _ => True
  end.

(** ** What an attribute contributes, as functions of the attribute *)

Fixpoint attr_events (a : Attr) : list Event :=
  match a with
  | mkAttr key v =>
      match v with
      | GroupValue [] => []
      | GroupValue attrs => StartRecord key :: (attrs ≫= attr_events) ++ [EndRecord]
      | StringValue s => [AddString key s]
      | Int64Value n => [AddInt64 key n]
      | Uint64Value n => [AddUint64 key n]
      | Float64Value f => [AddFloat64 key f]
      | BoolValue b => [AddBool key b]
      | DurationValue d => [AddInt64 key d]
      | TimeValue t => [AddTime key t]
      | AnyValue val =>
          match any_error val with
          | Some msg => if any_marshaler val then [AddMarshal key val] else [AddString key msg]
          | None => [AddMarshal key val]
          end
      | BadValue _ => []
      end
  end.

(** The member a call of [AddTime] leaves: none when the call returned
    an error. *)
Definition time_field {G : Goldjson} (key : string) (t : Time) : Fields :=
  match AddTime_error t with
  | None => [(key, JTime t)]
  | Some _ => []
  end.

(** The members the calls for an attribute read back as, where they are
    read: every call succeeded and every group that was opened received a
    member. *)
Fixpoint attr_fields {G : Goldjson} (a : Attr) : option Fields :=
  match a with
  | mkAttr key v =>
      match v with
      | GroupValue [] => Some []
      | GroupValue attrs =>
          match (fix go (attrs : list Attr) : option Fields :=
                   match attrs with
                   | [] => Some []
                   | a :: attrs =>
                       match attr_fields a, go attrs with
                       | Some fs, Some fs' => Some (fs ++ fs')
                       | _, _ => None
                       end
                   end) attrs with
          | Some (f :: fs) => Some [(key, JObject (f :: fs))]
          | _ => None
          end
      | StringValue s => Some [(key, JString s)]
      | Int64Value n => Some [(key, JInt64 n)]
      | Uint64Value n => Some [(key, JUint64 n)]
      | Float64Value f => Some [(key, JFloat64 f)]
      | BoolValue b => Some [(key, JBool b)]
      | DurationValue d => Some [(key, JInt64 d)]
      | TimeValue t =>
          match AddTime_error t with
          | None => Some [(key, JTime t)]
          | Some _ => None
          end
      | AnyValue val =>
          match any_error val with
          | Some msg =>
              if any_marshaler val
              then match AddMarshal_error val with
                   | None => Some [(key, JMarshal val)]
                   | Some _ => None
                   end
              else Some [(key, JString msg)]
          | None =>
              match AddMarshal_error val with
              | None => Some [(key, JMarshal val)]
              | Some _ => None
              end
          end
      | BadValue _ => Some []
      end
  end.

Fixpoint attrs_fields {G : Goldjson} (attrs : list Attr) : option Fields :=
  match attrs with
  | [] => Some []
  | a :: attrs =>
      match attr_fields a, attrs_fields attrs with
      | Some fs, Some fs' => Some (fs ++ fs')
      | _, _ => None
      end
  end.

Section Failures.
Context {G : Goldjson}.

(** The error [addAttr] returns for an attribute. *)
Fixpoint attr_error (a : Attr) : error :=
  match a with
  | mkAttr key v =>
      match v with
      | GroupValue [] => None
      | GroupValue attrs => foldl (λ err a, errors_Join [err; attr_error a]) None attrs
      | TimeValue t => AddTime_error t
      | AnyValue val =>
          match any_error val with
          | Some msg => if any_marshaler val then AddMarshal_error val else None
          | None => AddMarshal_error val
          end
      | BadValue kind => bad_kind kind
      | _ => None
      end
  end.

(** The result of every call that can fail while an attribute is
    written, in the order the calls are made. *)
Fixpoint attr_failures (a : Attr) : list error :=
  match a with
  | mkAttr key v =>
      match v with
      | GroupValue attrs => attrs ≫= attr_failures
      | TimeValue t => [AddTime_error t]
      | AnyValue val =>
          match any_error val with
          | Some msg => if any_marshaler val then [AddMarshal_error val] else []
          | None => [AddMarshal_error val]
          end
      | BadValue kind => [bad_kind kind]
      | _ => []
      end
  end.

(** The error the loop over a list of attributes leaves in [err]. *)
Definition attrs_error (attrs : list Attr) : error :=
  foldl (λ err a, errors_Join [err; attr_error a]) None attrs.

End Failures.

(** ** What the pipeline contributes *)

(** The calls the builders make around the calls [inner] of the terminal. *)
Definition pipeline_events (bs : list AttrBuilder) (inner : list Event) : list Event :=
  foldr (λ f inner,
           match f with
           | nilFunc => inner
           | staticBuilder staticFields _ => AddStaticFields staticFields :: inner
           | groupBuilder name => StartRecord name :: inner ++ [EndRecord]
           end) inner bs.

(** The value of a captured [err] variable (nil outside the heap, where
    the read itself panics). *)
Definition err_at (σ : Heap) (p : nat) : error :=
  match errs σ !! p with
  | Some e => e
  | None => None
  end.

(** The value of the variable [err] each static builder reads. *)
Definition builder_errors (σ : Heap) (bs : list AttrBuilder) : list error :=
  bs ≫= λ f, match f with
             | staticBuilder _ p => [err_at σ p]
             | _ => []
             end.

Definition pipeline_error (σ : Heap) (bs : list AttrBuilder) (inner : error) : error :=
  foldr (λ f inner,
           match f with
           | staticBuilder _ p => errors_Join [err_at σ p; inner]
           | _ => inner
           end) inner bs.

(** ** What a whole line contains *)

Definition write (l : LineWriter) (evs : list Event) : LineWriter :=
  {| lw_w := lw_w l; lw_buf := lw_buf l ++ evs |}.

(** The labels [Iterate] visits, in the order it visits them. *)
Fixpoint labels_of (c : labelContainer) : list Label :=
  match c with
  | nilContainer => []
  | mkLabelContainer labels parent => labels_of parent ++ labels
  end.

Definition label_event (label : Label) : Event :=
  AddString (LabelKey label) (LabelValue label).

Definition label_field (label : Label) : string * Json :=
  (LabelKey label, JString (LabelValue label)).

Definition labels_events (ctx : Context) : list Event :=
  match labels_of (labelsFromContext ctx) with
  | [] => []
  | labels => StartRecord fieldLabels :: map label_event labels ++ [EndRecord]
  end.

Definition labels_fields (ctx : Context) : Fields :=
  match labels_of (labelsFromContext ctx) with
  | [] => []
  | labels => [(fieldLabels, JObject (map label_field labels))]
  end.

Definition trace_events (h : Handler) (ctx : Context) : list Event :=
  let trace := traceFromContext ctx in
  if decide (ID trace = "") then []
  else
    AddString fieldTraceID ("projects/" +:+ ProjectID (config h) +:+ "/traces/" +:+ ID trace)
    :: (if decide (SpanID trace ≠ "") then [AddString fieldTraceSpanID (SpanID trace)] else [])
    ++ [AddBool fieldTraceSampled (Sampled trace)].

Definition trace_fields (h : Handler) (ctx : Context) : Fields :=
  let trace := traceFromContext ctx in
  if decide (ID trace = "") then []
  else
    (fieldTraceID,
     JString ("projects/" +:+ ProjectID (config h) +:+ "/traces/" +:+ ID trace))
    :: (if decide (SpanID trace ≠ "") then [(fieldTraceSpanID, JString (SpanID trace))] else [])
    ++ [(fieldTraceSampled, JBool (Sampled trace))].

Section Lines.
Context {G : Goldjson} {R : Runtime}.

Definition head_events (r : Record_) : list Event :=
  let f := CallersFrames (r_PC r) in
  [ AddString fieldMessage (r_Message r);
    AddTime fieldTimestamp (Time_Round0 (r_Time r));
    AddString fieldSeverity (severity (r_Level r));
    StartRecord fieldSourceLocation;
    AddString fieldSourceFile (File f);
    AddInt64 fieldSourceLine (FrameLine f);
    AddString fieldSourceFunction (Function f);
    EndRecord ].

Definition head_fields (r : Record_) : Fields :=
  let f := CallersFrames (r_PC r) in
  [ (fieldMessage, JString (r_Message r)) ]
  ++ time_field fieldTimestamp (Time_Round0 (r_Time r))
  ++ [ (fieldSeverity, JString (severity (r_Level r)));
       (fieldSourceLocation,
        JObject [ (fieldSourceFile, JString (File f));
                  (fieldSourceLine, JInt64 (FrameLine f));
                  (fieldSourceFunction, JString (Function f)) ]) ].

Definition fixed_events (h : Handler) (ctx : Context) (r : Record_) : list Event :=
  head_events r ++ trace_events h ctx ++ labels_events ctx.

Definition fixed_fields (h : Handler) (ctx : Context) (r : Record_) : Fields :=
  head_fields r ++ trace_fields h ctx ++ labels_fields ctx.

(** Every call of one [Handle], for a handler whose steps are [bs]. *)
Definition Handle_events (h : Handler) (bs : list AttrBuilder)
    (ctx : Context) (r : Record_) : Line :=
  fixed_events h ctx r ++ pipeline_events bs (r_Attrs r ≫= attr_events).

End Lines.

(** ** Well-formed handlers and heap growth *)

Definition builder_ok (σ : Heap) (f : AttrBuilder) : Prop :=
  match f with
  | nilFunc => False
  | staticBuilder _ p => p < length (errs σ)
  | groupBuilder _ => True
  end.

(** [bs] are the steps of [h]: the first [len] cells of its array. *)
Definition builders (σ : Heap) (h : Handler) (bs : list AttrBuilder) : Prop :=
  slice_elems σ (attrBuilders h) = Some bs ∧ length bs = s_len (attrBuilders h).

(** The encoder of [h] is allocated, and its steps are closures whose
    captured variables are allocated. Handlers are only built by
    [NewHandler], [WithAttrs] and [WithGroup], which establish this. *)
Definition valid (σ : Heap) (h : Handler) : Prop :=
  encoder h < length (encoders σ) ∧
  ∃ bs, builders σ h bs ∧ Forall (builder_ok σ) bs.

(** Every object of [σ] is in [σ'], unchanged. *)
Record extends (σ σ' : Heap) : Prop := mkExtends {
  ext_encoders : encoders σ `prefix_of` encoders σ';
  ext_arrays : arrays σ `prefix_of` arrays σ';
  ext_errs : errs σ `prefix_of` errs σ'
}.

Inductive Derivation : Type :=
  | byWithAttrs (as_ : list Attr)
  | byWithGroup (name : string).

Definition derive {G : Goldjson} (d : Derivation) (h : Handler) : Go Handler :=
  match d with
  | byWithAttrs as_ => WithAttrs h as_
  | byWithGroup name => WithGroup h name
  end.

(** ** The two readings of the replay order *)

Section Replay.
Context {G : Goldjson}.

(** The first step of the sequence runs first and receives the rest as
    [next]; the terminal is innermost, after the last step. *)
Definition replay_first_outermost (σ : Heap) (h : Handler)
    (steps : list AttrBuilder) (terminal : Next) : Next :=
  foldr (λ f next, λ ctx l, call_attrBuilder σ f ctx h l next) terminal steps.

(** The replay in the words of the specification: the last-appended step
    runs first and delegates to the second-to-last and so on, the
    terminal innermost; with no step the terminal runs directly. *)
Definition replay_last_outermost (σ : Heap) (h : Handler)
    (steps : list AttrBuilder) (terminal : Next) : Next :=
  foldl (λ next f, λ ctx l, call_attrBuilder σ f ctx h l next) terminal steps.

End Replay.

(** ** Fixtures, after the ones of the test suite *)

(** A writer that accepts everything, and one that fails every write. *)
Definition IgnoreWriter : Writer := λ _, None.
Definition ErrorWriter : Writer := λ _, Some (errorString "error writing").

(** A value whose MarshalJSON fails. *)
Definition ErroringMarshal : Any :=
  {| any_repr := "ErroringMarshal{}"; any_error := None; any_marshaler := true |}.

(** An encoder that accepts every time, fails to marshal exactly
    [ErroringMarshal], and whose static-fields writer accepts everything. *)
Definition test_goldjson : Goldjson := {|
  AddTime_error := λ _, None;
  AddMarshal_error := λ v,
    if decide (any_repr v = "ErroringMarshal{}")
    then Some (errorString "cannot be marshaled") else None;
  StaticFields_w := IgnoreWriter
|}.

Definition test_runtime : Runtime := {|
  CallersFrames := λ pc, {| File := "main.go"; FrameLine := pc; Function := "main.main" |}
|}.


(** The keys [NewHandler] prepares. *)
Definition prepared_keys : list string :=
  [fieldMessage; fieldTimestamp; fieldSeverity; fieldSourceLocation;
   fieldSourceFile; fieldSourceLine; fieldSourceFunction; fieldTraceID;
   fieldTraceSpanID; fieldTraceSampled; fieldLabels].

(** The handler and heap [NewHandler IgnoreWriter {ProjectID: "proj"}]
    builds from the empty heap. *)
Definition base_handler : Handler :=
  {| encoder := 0; config := {| ProjectID := "proj"; Level := None |};
     attrBuilders := nilSlice |}.

Definition base_heap : Heap :=
  {| encoders := [{| enc_w := IgnoreWriter; enc_keys := prepared_keys |}];
     arrays := [];
     errs := [] |}.

(** [WithAttrs] with one attribute, then [WithGroup], on the base handler. *)
Definition two_steps : option (Handler * Heap) :=
  (h ← NewHandler IgnoreWriter {| ProjectID := "proj"; Level := None |};
   h ← WithAttrs (G := test_goldjson) h [mkAttr "X" (Int64Value 1)];
   WithGroup h "G") emptyHeap.

Definition two_steps_handler : Handler :=
  {| encoder := 1; config := {| ProjectID := "proj"; Level := None |};
     attrBuilders := {| s_array := Some 1; s_len := 2; s_cap := 2 |} |}.

Definition two_steps_heap : Heap :=
  {| encoders := [ {| enc_w := IgnoreWriter; enc_keys := prepared_keys |};
                   {| enc_w := IgnoreWriter; enc_keys := prepared_keys ++ ["G"] |} ];
     arrays := [ [staticBuilder [AddInt64 "X" 1] 0];
                 [staticBuilder [AddInt64 "X" 1] 0; groupBuilder "G"] ];
     errs := [None] |}.

(** [WithAttrs] with an attribute that fails to marshal, on the base handler. *)
Definition erroring_static : option (Handler * Heap) :=
  (h ← NewHandler IgnoreWriter {| ProjectID := "proj"; Level := None |};
   WithAttrs (G := test_goldjson) h [mkAttr "Erroring" (AnyValue ErroringMarshal)]) emptyHeap.

Definition erroring_handler : Handler :=
  {| encoder := 0; config := {| ProjectID := "proj"; Level := None |};
     attrBuilders := {| s_array := Some 0; s_len := 1; s_cap := 1 |} |}.

Definition erroring_heap : Heap :=
  {| encoders := [{| enc_w := IgnoreWriter; enc_keys := prepared_keys |}];
     arrays := [[staticBuilder [AddMarshal "Erroring" ErroringMarshal] 0]];
     errs := [None] |}.

Definition empty_record (msg : string) (level : Z) : Record_ :=
  {| r_Time := {| unixNano := 0; monotonic := None |}; r_Message := msg;
     r_Level := level; r_PC := 0; r_Attrs := [] |}.

(** ** Statements used by the properties below *)

(** The replay order as the specification words it, as a statement
    about [addAttrs]. *)
Definition replays_last_outermost {G : Goldjson} : Prop :=
  ∀ σ h bs ctx l r,
    builders σ h bs → bs ≠ [] →
    addAttrs σ h ctx l r
    = replay_last_outermost σ h bs (λ ctx l, Some (addAttrsRaw h ctx l r)) ctx l.

(** [AddLabels(AddLabels(ctx, a=1, b=2), b=9, c=3)] *)
Definition shadowing (ctx : Context) : Context :=
  AddLabels (AddLabels ctx [NewLabel "a" "1"; NewLabel "b" "2"])
            [NewLabel "b" "9"; NewLabel "c" "3"].

(** The labels object of a line emitted under [ctx], as a consumer reads it. *)
Definition labels_object (ctx : Context) : gmap string Json :=
  obj_map (map label_field (labels_of (labelsFromContext ctx))).

(** The order of the four severities. *)
Definition severity_rank (s : string) : nat :=
  if decide (s = "DEBUG") then 0
  else if decide (s = "INFO") then 1
  else if decide (s = "WARN") then 2
  else 3.

(** Some [Trace.Context] call, or another store under the trace key, is
    on the chain of [ctx]. *)
Fixpoint trace_stored (ctx : Context) : bool :=
  match ctx with
  | Background => false
  | WithValue parent key _ =>
      match key with
      | traceContextKeyT => true
      | _ => trace_stored parent
      end
  end.

(** A record with the fields of [r] and the attributes [attrs]. *)
Definition with_attrs (r : Record_) (attrs : list Attr) : Record_ :=
  {| r_Time := r_Time r; r_Message := r_Message r; r_Level := r_Level r;
     r_PC := r_PC r; r_Attrs := attrs |}.

(** [h] with another configuration. *)
Definition set_config (h : Handler) (cfg : Config) : Handler :=
  {| encoder := encoder h; config := cfg; attrBuilders := attrBuilders h |}.

(** ** Chains of derivations *)

(** [ds] applied to a handler, the first derivation first. *)
Fixpoint derive_all {G : Goldjson} (ds : list Derivation) (h : Handler) : Go Handler :=
  match ds with
  | [] => mret h
  | d :: ds => h ← derive d h; derive_all ds h
  end.

(** The calls a chain of derivations puts around the calls [inner] of the
    record's own attributes, and the members they read back as. *)
Definition nest_events (ds : list Derivation) (inner : list Event) : list Event :=
  foldr (λ d inner,
           match d with
           | byWithAttrs as_ => AddStaticFields (as_ ≫= attr_events) :: inner
           | byWithGroup name => StartRecord name :: inner ++ [EndRecord]
           end) inner ds.

(** The members a chain puts around the members [inner], where the line
    is read: the attributes of every [WithAttrs] read back and are not
    empty, and no group is left empty. *)
Definition nest_fields {G : Goldjson} (ds : list Derivation) (inner : Fields) :
    option Fields :=
  foldr (λ d inner,
           match inner with
           | None => None
           | Some inner =>
               match d with
               | byWithAttrs as_ =>
                   match object_of [AddStaticFields (as_ ≫= attr_events)] with
                   | Some fs => Some (fs ++ inner)
                   | None => None
                   end
               | byWithGroup name =>
                   match inner with
                   | [] => None
                   | _ :: _ => Some [(name, JObject inner)]
                   end
               end
           end) (Some inner) ds.

(** ** Kinds that no encoder can reject *)

(** No time, no arbitrary object and no undeclared kind, at any depth. *)
Fixpoint scalar_only (a : Attr) : bool :=
  match a with
  | mkAttr _ v =>
      match v with
      | GroupValue attrs => forallb scalar_only attrs
      | TimeValue _ | AnyValue _ | BadValue _ => false
      | _ => true
      end
  end.

(** An encoder that rejects every time and every marshalled value. *)
Definition rejecting_goldjson : Goldjson := {|
  AddTime_error := λ _, Some (errorString "time out of range");
  AddMarshal_error := λ _, Some (errorString "cannot be marshaled");
  StaticFields_w := IgnoreWriter
|}.

(** The key a call writes, if it writes one. *)
Definition event_key (e : Event) : option string :=
  match e with
  | AddString key _ | AddInt64 key _ | AddUint64 key _ | AddFloat64 key _
  | AddBool key _ | AddTime key _ | AddMarshal key _ | StartRecord key => Some key
  | EndRecord | AddStaticFields _ => None
  end.

(** ** internal/slogtest: ErrorHandler *)

(** [ErrorHandler]: the handler it wraps (here a [Handler] of this
    package, as in the tests) and the address of its [errorCapture]. *)
Record ErrorHandler : Type := mkErrorHandler {
  eh_inner : Handler;
  eh_errorCapture : nat
}.

(** The [errorCapture] objects are a [list error]: by address, the [err]
    each one holds. One caller at a time: the mutex is not modelled. *)

Definition NewErrorHandler (inner : Handler) (cs : list error) : ErrorHandler * list error :=
  ({| eh_inner := inner; eh_errorCapture := length cs |}, cs ++ [None]).

(** [c.capture(err)]: joins [err] into [c.err] and returns [err]. *)
Definition errorCapture_capture (c : nat) (err : error) (cs : list error) :
    option (error * list error) :=
  old ← cs !! c;
  Some (err, <[c := errors_Join [old; err]]> cs).

(** [c.Err()] *)
Definition errorCapture_Err (c : nat) (cs : list error) : option error := cs !! c.

Definition ErrorHandler_Enabled (h : ErrorHandler) (ctx : Context) (level : Z) : bool :=
  Enabled (eh_inner h) ctx level.

(** [Handle]: the error returned, the line the inner handler wrote, and
    the captures afterwards. *)
Definition ErrorHandler_Handle {G : Goldjson} {R : Runtime} (σ : Heap) (h : ErrorHandler)
    (ctx : Context) (r : Record_) (cs : list error) : option (error * Line * list error) :=
  '(err, line) ← Handle σ (eh_inner h) ctx r;
  '(err, cs) ← errorCapture_capture (eh_errorCapture h) err cs;
  Some (err, line, cs).

Definition ErrorHandler_WithAttrs {G : Goldjson} (h : ErrorHandler) (attrs : list Attr) :
    Go ErrorHandler :=
  inner ← WithAttrs (eh_inner h) attrs;
  mret {| eh_inner := inner; eh_errorCapture := eh_errorCapture h |}.

Definition ErrorHandler_WithGroup (h : ErrorHandler) (name : string) : Go ErrorHandler :=
  inner ← WithGroup (eh_inner h) name;
  mret {| eh_inner := inner; eh_errorCapture := eh_errorCapture h |}.

Definition ErrorHandler_Err (h : ErrorHandler) (cs : list error) : option error :=
  errorCapture_Err (eh_errorCapture h) cs.

(** A series of [Handle] calls, each through its own handler; the errors
    returned, in order. *)
Fixpoint Handle_each {G : Goldjson} {R : Runtime} (σ : Heap)
    (calls : list (ErrorHandler * Context * Record_)) (cs : list error) :
    option (list error * list error) :=
  match calls with
  | [] => Some ([], cs)
  | (h, ctx, r) :: calls =>
      '(err, _, cs) ← ErrorHandler_Handle σ h ctx r cs;
      '(errs, cs) ← Handle_each σ calls cs;
      Some (err :: errs, cs)
  end.

(** ** internal/slogtest: Capture *)

Section Capture.
Context {T : Type}.

(** [json.Unmarshal(data, &entry)] for the entry type: the entry, or the
    error. The written [data []byte] is a string of bytes. *)
Variable Unmarshal : string → T + err.

(** [Capture[T]]: its [entries]. One caller at a time: the mutex is not
    modelled. *)
Definition Capture_Write (data : string) (entries : list T) : (nat * error) * list T :=
  let n := String.length data in
  match Unmarshal data with
  | inr e => ((n, Some e), entries)
  | inl entry => ((n, None), entries ++ [entry])
  end.

Definition Capture_Entries (entries : list T) : list T := entries.

(** A series of writes; what each returned, in order. *)
Fixpoint Capture_Write_all (datas : list string) (entries : list T) :
    list (nat * error) * list T :=
  match datas with
  | [] => ([], entries)
  | data :: datas =>
      let '(res, entries) := Capture_Write data entries in
      let '(ress, entries) := Capture_Write_all datas entries in
      (res :: ress, entries)
  end.

End Capture.

(** ** labels_test.go: requireEqualSlices *)

(** [Label] is comparable: two strings. *)
#[global] Instance Label_eq_dec : EqDecision Label.
Proof. solve_decision. Defined.

(** How a call of [requireEqualSlices] ends: it returns, or [tb.Fatalf]
    stops the test at the length check or at index [i], or an index
    expression panics. *)
Inductive Outcome : Type :=
  | returned
  | fatal_len (expected received : nat)
  | fatal_value (i : nat)
  | panicked.

Section RequireEqualSlices.
Context {T : Type} `{EqDecision T}.

(** The loop [for i := range expected], over the values of [i]. *)
Fixpoint requireEqualSlices_loop (range : list nat) (expected received : list T) : Outcome :=
  match range with
  | [] => returned
  | i :: range =>
      match expected !! i, received !! i with
      | Some e, Some r =>
          if decide (e ≠ r) then fatal_value i
          else requireEqualSlices_loop range expected received
      | _, _ => panicked
      end
  end.

Definition requireEqualSlices (expected received : list T) : Outcome :=
  if decide (length expected ≠ length received)
  then fatal_len (length expected) (length received)
  else requireEqualSlices_loop (seq 0 (length expected)) expected received.

End RequireEqualSlices.
(** * Properties *)

(** ** Errors *)

Lemma err_leaves_joinError es : err_leaves (joinError es) = es ≫= err_leaves.
Proof. simpl. induction es as [|e es IH]; [done|]. by rewrite IH. Qed.

Lemma omap_id_leaves (es : list error) :
  omap id es ≫= err_leaves = es ≫= error_leaves.
Proof.
  induction es as [|[e|] es IH]; simpl; [done| |done].
  change (err_leaves e ++ (omap id es ≫= err_leaves)
          = err_leaves e ++ (es ≫= error_leaves)).
  by rewrite IH.
Qed.

Lemma errors_Join_leaves es : error_leaves (errors_Join es) = es ≫= error_leaves.
Proof.
  unfold errors_Join. rewrite <-omap_id_leaves.
  destruct (omap id es) as [|e es'] eqn:E; [done|].
  unfold error_leaves. by rewrite err_leaves_joinError.
Qed.

Lemma errors_Join_nil es : errors_Join es = None ↔ Forall (eq None) es.
Proof.
  unfold errors_Join. induction es as [|[e|] es IH]; simpl.
  - split; [constructor|done].
  - split; [done|]. intros H. by inversion H.
  - change (omap id (None :: es)) with (omap id es).
    rewrite Forall_cons. tauto.
Qed.

Lemma errors_Join2_nil a b : errors_Join [a; b] = None ↔ a = None ∧ b = None.
Proof.
  rewrite errors_Join_nil, !Forall_cons, Forall_nil.
  split; [intros (<- & <- & _)|intros [-> ->]]; done.
Qed.

Lemma errors_Join2_leaves a b :
  error_leaves (errors_Join [a; b]) = error_leaves a ++ error_leaves b.
Proof. rewrite errors_Join_leaves. simpl. by rewrite app_nil_r. Qed.

(** The accumulation [err = errors.Join(err, e)] over a list of results. *)
Lemma join_loop_nil (es : list error) (init : error) :
  foldl (λ err e, errors_Join [err; e]) init es = None
  ↔ init = None ∧ Forall (eq None) es.
Proof.
  revert init. induction es as [|e es IH]; intros init; simpl.
  - rewrite Forall_nil. tauto.
  - rewrite IH, errors_Join2_nil, Forall_cons.
    split; [intros [[-> ->] ?]|intros [-> [<- ?]]]; done.
Qed.

Lemma join_loop_leaves (es : list error) (init : error) :
  error_leaves (foldl (λ err e, errors_Join [err; e]) init es)
  = error_leaves init ++ (es ≫= error_leaves).
Proof.
  revert init. induction es as [|e es IH]; intros init; simpl.
  - by rewrite app_nil_r.
  - rewrite IH, errors_Join2_leaves. by rewrite <-app_assoc.
Qed.

(** ** Line writers *)

Lemma emit_write l e : emit l e = write l [e].
Proof. done. Qed.

Lemma write_nil l : write l [] = l.
Proof. destruct l. unfold write. simpl. by rewrite app_nil_r. Qed.

Lemma write_write l evs1 evs2 : write (write l evs1) evs2 = write l (evs1 ++ evs2).
Proof. unfold write. simpl. by rewrite app_assoc. Qed.

(** ** Induction on attributes, through the children of a group *)

Section AttrInduction.
Variable P : Attr → Prop.
Hypothesis Hgroup : ∀ key attrs, Forall P attrs → P (mkAttr key (GroupValue attrs)).
Hypothesis Hleaf : ∀ key v, (∀ attrs, v ≠ GroupValue attrs) → P (mkAttr key v).

Lemma Attr_nested_ind : ∀ a, P a.
Proof using Hgroup Hleaf.
  fix IH 1. intros [key v].
  destruct v as [attrs| | | | | | | | |]; try (apply Hleaf; discriminate).
  apply Hgroup. induction attrs as [|a attrs IHattrs]; constructor.
  - apply IH.
  - apply IHattrs.
Qed.
End AttrInduction.

(** ** addAttr writes [attr_events] and returns [attr_error] *)

Section DispatchFacts.
Context {G : Goldjson}.

Lemma range_addAttr_spec attrs :
  Forall (λ a, ∀ l, addAttr l a = (attr_error a, write l (attr_events a))) attrs →
  ∀ err l,
    range_addAttr addAttr attrs err l
    = (foldl (λ err a, errors_Join [err; attr_error a]) err attrs,
       write l (attrs ≫= attr_events)).
Proof.
  induction 1 as [|a attrs Ha _ IH]; intros err l; simpl.
  - by rewrite write_nil.
  - rewrite Ha, IH, write_write. done.
Qed.

(** [addAttr] hands a group to [addGroup]. *)
Lemma addAttr_group l key attrs :
  addAttr l (mkAttr key (GroupValue attrs))
  = addGroup l (mkAttr key (GroupValue attrs)) attrs.
Proof. done. Qed.

Lemma addAttr_spec a l : addAttr l a = (attr_error a, write l (attr_events a)).
Proof.
  revert l. induction a as [key attrs IH|key v Hv] using Attr_nested_ind; intros l.
  - destruct attrs as [|a attrs]; simpl.
    + by rewrite write_nil.
    + pose proof (range_addAttr_spec (a :: attrs) IH) as Hr.
      simpl in Hr. rewrite Hr, !emit_write, !write_write. done.
  - destruct v as [attrs|s|n|n|f|b|d|t|val|kind]; simpl;
      rewrite ?emit_write, ?write_nil; try done.
    + by destruct (Hv attrs).
    + unfold addAny. simpl.
      destruct (any_error val) as [msg|], (any_marshaler val); done.
Qed.

Lemma range_addAttr_addAttr attrs err l :
  range_addAttr addAttr attrs err l
  = (foldl (λ err a, errors_Join [err; attr_error a]) err attrs,
     write l (attrs ≫= attr_events)).
Proof. apply range_addAttr_spec, Forall_forall. intros a _ l'. apply addAttr_spec. Qed.

Lemma attr_error_nil a : attr_error a = None ↔ Forall (eq None) (attr_failures a).
Proof.
  induction a as [key attrs IH|key v Hv] using Attr_nested_ind.
  - destruct attrs as [|a attrs]; [simpl; by rewrite Forall_nil|].
    change (attr_error (mkAttr key (GroupValue (a :: attrs))))
      with (foldl (λ err a, errors_Join [err; attr_error a]) None (a :: attrs)).
    change (attr_failures (mkAttr key (GroupValue (a :: attrs))))
      with ((a :: attrs) ≫= attr_failures).
    generalize (a :: attrs) IH. clear. intros attrs IH.
    rewrite <-(foldl_fmap (λ err e, errors_Join [err; e]) None attrs attr_error).
    rewrite join_loop_nil.
    assert (Forall (eq None) (attr_error <$> attrs)
            ↔ Forall (eq None) (attrs ≫= attr_failures)) as ->; [|tauto].
    induction IH as [|a attrs Ha _ IH]; [done|].
    rewrite fmap_cons, bind_cons, Forall_cons, Forall_app, <-IH, <-Ha.
    split; intros [? ?]; done.
  - destruct v as [attrs|s|n|n|f|b|d|t|val|kind]; simpl;
      rewrite ?Forall_nil, ?Forall_singleton; try done.
    + by destruct (Hv attrs).
    + destruct (any_error val), (any_marshaler val);
        rewrite ?Forall_nil, ?Forall_singleton; done.
Qed.


Lemma attr_error_leaves a :
  error_leaves (attr_error a) = attr_failures a ≫= error_leaves.
Proof.
  induction a as [key attrs IH|key v Hv] using Attr_nested_ind.
  - destruct attrs as [|a attrs]; [done|].
    change (attr_error (mkAttr key (GroupValue (a :: attrs))))
      with (foldl (λ err a, errors_Join [err; attr_error a]) None (a :: attrs)).
    change (attr_failures (mkAttr key (GroupValue (a :: attrs))))
      with ((a :: attrs) ≫= attr_failures).
    generalize (a :: attrs) IH. clear. intros attrs IH.
    rewrite <-(foldl_fmap (λ err e, errors_Join [err; e]) None attrs attr_error).
    rewrite join_loop_leaves. simpl.
    induction IH as [|a attrs Ha _ IH]; [done|].
    rewrite fmap_cons, !bind_cons, bind_app, IH, Ha. done.
  - destruct v as [attrs|s|n|n|f|b|d|t|val|kind]; simpl; try done.
    + by destruct (Hv attrs).
    + by rewrite app_nil_r.
    + destruct (any_error val), (any_marshaler val); simpl; by rewrite ?app_nil_r.
Qed.

End DispatchFacts.

(** ** Reading lines *)

Section Reading.
Context {G : Goldjson}.

Lemma renders_nil : renders [] [].
Proof. intros rest cur stack. by rewrite app_nil_r. Qed.

Lemma renders_app evs1 evs2 fs1 fs2 :
  renders evs1 fs1 → renders evs2 fs2 → renders (evs1 ++ evs2) (fs1 ++ fs2).
Proof.
  intros H1 H2 rest cur stack.
  by rewrite <-app_assoc, H1, H2, app_assoc.
Qed.

Lemma renders_record key evs fs :
  renders evs fs → fs ≠ [] →
  renders (StartRecord key :: evs ++ [EndRecord]) [(key, JObject fs)].
Proof.
  intros H Hne rest cur stack. simpl. rewrite <-app_assoc, H. simpl.
  by destruct fs.
Qed.

Lemma renders_bind {A} (f : A → list Event) (g : A → Fields) (xs : list A) :
  Forall (λ x, renders (f x) (g x)) xs → renders (xs ≫= f) (xs ≫= g).
Proof.
  induction 1 as [|x xs Hx _ IH]; [apply renders_nil|].
  rewrite !bind_cons. by apply renders_app.
Qed.

Lemma renders_parse evs fs : renders evs fs → parse evs [] [] = Some fs.
Proof. intros H. specialize (H [] [] []). by rewrite app_nil_r in H. Qed.

Lemma attrs_fields_go (attrs : list Attr) :
  (fix go (attrs : list Attr) : option Fields :=
     match attrs with
     | [] => Some []
     | a :: attrs =>
         match attr_fields a, go attrs with
         | Some fs, Some fs' => Some (fs ++ fs')
         | _, _ => None
         end
     end) attrs = attrs_fields attrs.
Proof. induction attrs as [|a attrs IH]; [done|]. simpl. by rewrite IH. Qed.

Lemma attr_fields_group key a attrs :
  attr_fields (mkAttr key (GroupValue (a :: attrs)))
  = match attrs_fields (a :: attrs) with
    | Some (f :: fs) => Some [(key, JObject (f :: fs))]
    | _ => None
    end.
Proof.
  change (attr_fields (mkAttr key (GroupValue (a :: attrs))))
    with (match (match attr_fields a,
                       (fix go (attrs : list Attr) : option Fields :=
                          match attrs with
                          | [] => Some []
                          | a :: attrs =>
                              match attr_fields a, go attrs with
                              | Some fs, Some fs' => Some (fs ++ fs')
                              | _, _ => None
                              end
                          end) attrs with
                 | Some fs, Some fs' => Some (fs ++ fs')
                 | _, _ => None
                 end) with
          | Some (f :: fs) => Some [(key, JObject (f :: fs))]
          | _ => None
          end).
  by rewrite attrs_fields_go.
Qed.

(** The calls for an attribute are read as a whole: they give the members
    [attr_fields] describes, or the line is not read. *)
Lemma attr_parse a rest cur stack :
  parse (attr_events a ++ rest) cur stack
  = match attr_fields a with
    | Some fs => parse rest (cur ++ fs) stack
    | None => None
    end.
Proof.
  revert rest cur stack.
  induction a as [key attrs IH|key v Hv] using Attr_nested_ind; intros rest cur stack.
  - destruct attrs as [|a attrs]; [simpl; by rewrite app_nil_r|].
    rewrite attr_fields_group.
    change (attr_events (mkAttr key (GroupValue (a :: attrs))))
      with (StartRecord key :: ((a :: attrs) ≫= attr_events) ++ [EndRecord]).
    assert (∀ (xs : list Attr) rest cur stack,
               Forall (λ a, ∀ rest cur stack,
                         parse (attr_events a ++ rest) cur stack
                         = match attr_fields a with
                           | Some fs => parse rest (cur ++ fs) stack
                           | None => None
                           end) xs →
               parse ((xs ≫= attr_events) ++ rest) cur stack
               = match attrs_fields xs with
                 | Some fs => parse rest (cur ++ fs) stack
                 | None => None
                 end) as Hlist.
    { clear. intros xs rest cur stack Hxs. revert cur.
      induction Hxs as [|x xs Hx _ IHxs]; intros cur.
      - simpl. by rewrite app_nil_r.
      - rewrite bind_cons, <-app_assoc, Hx. simpl.
        destruct (attr_fields x) as [fs|]; [|done].
        rewrite IHxs. destruct (attrs_fields xs) as [fs'|]; [|done].
        by rewrite app_assoc. }
    change (parse ((StartRecord key :: ((a :: attrs) ≫= attr_events) ++ [EndRecord]) ++ rest)
              cur stack)
      with (parse ((((a :: attrs) ≫= attr_events) ++ [EndRecord]) ++ rest) []
              ((key, cur) :: stack)).
    rewrite <-app_assoc, (Hlist (a :: attrs)) by exact IH.
    destruct (attrs_fields (a :: attrs)) as [[|f fs]|]; done.
  - destruct v as [attrs|s|n|n|f|b|d|t|val|kind]; try reflexivity.
    + by destruct (Hv attrs).
    + simpl. by destruct (AddTime_error t).
    + simpl. destruct (any_error val), (any_marshaler val); simpl;
        by destruct (AddMarshal_error val).
    + simpl. by rewrite app_nil_r.
Qed.

Lemma attrs_parse (attrs : list Attr) rest cur stack :
  parse ((attrs ≫= attr_events) ++ rest) cur stack
  = match attrs_fields attrs with
    | Some fs => parse rest (cur ++ fs) stack
    | None => None
    end.
Proof.
  revert cur. induction attrs as [|a attrs IH]; intros cur.
  - simpl. by rewrite app_nil_r.
  - rewrite bind_cons, <-app_assoc, attr_parse. simpl.
    destruct (attr_fields a) as [fs|]; [|done].
    rewrite IH. destruct (attrs_fields attrs) as [fs'|]; [|done].
    by rewrite app_assoc.
Qed.

Lemma attrs_fields_renders (attrs : list Attr) fs :
  attrs_fields attrs = Some fs → renders (attrs ≫= attr_events) fs.
Proof. intros H rest cur stack. by rewrite attrs_parse, H. Qed.

Lemma attr_fields_renders a fs : attr_fields a = Some fs → renders (attr_events a) fs.
Proof. intros H rest cur stack. by rewrite attr_parse, H. Qed.

Lemma plain_filled e : plain e → filled e = true.
Proof. by destruct e. Qed.

Lemma plain_all_filled evs : Forall plain evs → forallb filled evs = true.
Proof.
  intros H. apply forallb_forall. intros e He%list_elem_of_In.
  rewrite Forall_forall in H. by apply plain_filled, H.
Qed.

Lemma filled_static staticFields :
  staticFields ≠ [] → Forall plain staticFields →
  filled (AddStaticFields staticFields) = true.
Proof.
  intros Hne Hp. destruct staticFields as [|e es]; [done|].
  by apply (plain_all_filled (e :: es)).
Qed.

Lemma object_of_renders l fs :
  forallb filled l = true → renders (inline_line l) fs → object_of l = Some fs.
Proof. intros Hf Hr. unfold object_of. rewrite Hf. by apply renders_parse. Qed.

Lemma inline_AddStaticFields staticFields :
  inline (AddStaticFields staticFields) = inline_line staticFields.
Proof.
  unfold inline_line. simpl.
  induction staticFields as [|e es IH]; [done|]. by rewrite bind_cons, IH.
Qed.

Lemma inline_line_plain evs : Forall plain evs → inline_line evs = evs.
Proof.
  unfold inline_line. induction 1 as [|e evs He _ IH]; [done|].
  rewrite bind_cons, IH. by destruct e.
Qed.

Lemma inline_line_app evs1 evs2 :
  inline_line (evs1 ++ evs2) = inline_line evs1 ++ inline_line evs2.
Proof. apply bind_app. Qed.

Lemma attr_events_plain a : Forall plain (attr_events a).
Proof.
  induction a as [key attrs IH|key v Hv] using Attr_nested_ind.
  - destruct attrs as [|a attrs]; [constructor|].
    change (attr_events (mkAttr key (GroupValue (a :: attrs))))
      with (StartRecord key :: ((a :: attrs) ≫= attr_events) ++ [EndRecord]).
    constructor; [done|]. apply Forall_app. split; [|by repeat constructor].
    by apply Forall_bind.
  - destruct v as [attrs|s|n|n|f|b|d|t|val|kind]; simpl; repeat constructor.
    + by destruct (Hv attrs).
    + destruct (any_error val), (any_marshaler val); repeat constructor.
Qed.

Lemma attrs_events_plain (attrs : list Attr) : Forall plain (attrs ≫= attr_events).
Proof. apply Forall_bind, Forall_forall. intros a _. apply attr_events_plain. Qed.

Lemma object_of_attrs (attrs : list Attr) :
  object_of (attrs ≫= attr_events) = attrs_fields attrs.
Proof.
  unfold object_of. rewrite plain_all_filled by apply attrs_events_plain.
  rewrite inline_line_plain by apply attrs_events_plain.
  rewrite <-(right_id_L [] (++) (attrs ≫= attr_events)), attrs_parse.
  by destruct (attrs_fields attrs).
Qed.

Lemma object_of_attr a : object_of (attr_events a) = attr_fields a.
Proof.
  unfold object_of. rewrite plain_all_filled by apply attr_events_plain.
  rewrite inline_line_plain by apply attr_events_plain.
  rewrite <-(right_id_L [] (++) (attr_events a)), attr_parse.
  by destruct (attr_fields a).
Qed.

Lemma object_of_plain evs fs :
  Forall plain evs → renders evs fs → object_of evs = Some fs.
Proof.
  intros Hp Hr. apply object_of_renders; [by apply plain_all_filled|].
  by rewrite inline_line_plain.
Qed.

End Reading.

(** ** The fixed fields *)

Lemma Iterate_labels_of {S : Type} (c : labelContainer) (f : Label → S → S) (s : S) :
  Iterate c f s = foldl (λ s label, f label s) s (labels_of c).
Proof.
  revert s. induction c as [|labels parent IH]; intros s; simpl; [done|].
  by rewrite foldl_app, IH.
Qed.

Lemma addLabels_visit_opened labels l :
  foldl (λ s label, addLabels_visit label s) (true, l) labels
  = (true, write l (map label_event labels)).
Proof.
  revert l. induction labels as [|label labels IH]; intros l; simpl.
  - by rewrite write_nil.
  - rewrite emit_write, IH, write_write. done.
Qed.

Lemma addLabels_spec h ctx l r : addLabels h ctx l r = write l (labels_events ctx).
Proof.
  unfold addLabels, labels_events. rewrite Iterate_labels_of.
  destruct (labels_of (labelsFromContext ctx)) as [|label labels]; simpl.
  - by rewrite write_nil.
  - rewrite !emit_write, write_write, addLabels_visit_opened.
    rewrite !emit_write, !write_write. by rewrite <-!app_assoc.
Qed.

Lemma addTrace_spec h ctx l r : addTrace h ctx l r = write l (trace_events h ctx).
Proof.
  unfold addTrace, trace_events.
  destruct (decide (ID (traceFromContext ctx) = "")); [by rewrite write_nil|].
  destruct (decide (SpanID (traceFromContext ctx) ≠ ""));
    by rewrite !emit_write, !write_write.
Qed.

Section FixedFields.
Context {G : Goldjson} {R : Runtime}.

Lemma fixed_fields_spec h ctx l r :
  addLabels h ctx
    (addTrace h ctx
       (addSourceLocation h ctx
          (addSeverity h ctx (addTimestamp h ctx (addMessage h ctx l r) r) r) r) r) r
  = write l (fixed_events h ctx r).
Proof.
  rewrite addLabels_spec, addTrace_spec.
  unfold addSourceLocation, addSeverity, addTimestamp, addMessage, fixed_events.
  by rewrite !emit_write, !write_write.
Qed.

Lemma head_renders r :
  AddTime_error (Time_Round0 (r_Time r)) = None →
  renders (head_events r) (head_fields r).
Proof.
  intros Ht rest cur stack. unfold head_events, head_fields, time_field. cbn.
  rewrite Ht. cbn. by rewrite <-!app_assoc.
Qed.

Lemma trace_renders h ctx : renders (trace_events h ctx) (trace_fields h ctx).
Proof.
  unfold trace_events, trace_fields.
  destruct (decide (ID (traceFromContext ctx) = "")); [apply renders_nil|].
  destruct (decide (SpanID (traceFromContext ctx) ≠ ""));
    intros rest cur stack; cbn; by rewrite <-!app_assoc.
Qed.

Lemma labels_renders ctx : renders (labels_events ctx) (labels_fields ctx).
Proof.
  unfold labels_events, labels_fields.
  destruct (labels_of (labelsFromContext ctx)) as [|label labels]; [apply renders_nil|].
  apply renders_record; [|done]. generalize (label :: labels). clear. intros labels.
  induction labels as [|label labels IH]; [apply renders_nil|].
  apply (renders_app [_] _ [_]); [|done]. by intros rest cur stack.
Qed.

Lemma fixed_renders h ctx r :
  AddTime_error (Time_Round0 (r_Time r)) = None →
  renders (fixed_events h ctx r) (fixed_fields h ctx r).
Proof.
  intros Ht. unfold fixed_events, fixed_fields.
  auto using renders_app, head_renders, trace_renders, labels_renders.
Qed.

Lemma fixed_events_plain h ctx r : Forall plain (fixed_events h ctx r).
Proof.
  unfold fixed_events, trace_events, labels_events.
  rewrite !Forall_app. split; [by repeat constructor|split].
  - destruct (decide (ID (traceFromContext ctx) = "")); [constructor|].
    destruct (decide (SpanID (traceFromContext ctx) ≠ "")); by repeat constructor.
  - destruct (labels_of (labelsFromContext ctx)) as [|label labels]; [constructor|].
    constructor; [done|]. rewrite Forall_app. split; [|by repeat constructor].
    apply Forall_fmap, Forall_forall. by intros.
Qed.

End FixedFields.

(** ** Slices and the heap *)

Lemma lookup_snoc {A} (l : list A) x : (l ++ [x]) !! length l = Some x.
Proof. by apply list_lookup_middle. Qed.

Lemma insert_snoc {A} (l : list A) x y : <[length l := y]> (l ++ [x]) = l ++ [y].
Proof. rewrite insert_app_r_alt by lia. by rewrite Nat.sub_diag. Qed.

Lemma append_fits σ p len cap arr values :
  arrays σ !! p = Some arr → len + length values ≤ cap →
  append {| s_array := Some p; s_len := len; s_cap := cap |} values σ
  = Some ({| s_array := Some p; s_len := len + length values; s_cap := cap |},
          {| encoders := encoders σ;
             arrays := <[p := take len arr ++ values ++ drop (len + length values) arr]> (arrays σ);
             errs := errs σ |}).
Proof.
  intros Harr Hcap. unfold append. simpl.
  rewrite decide_True by done.
  unfold mbind, Go_bind, load_array, store_array. simpl. rewrite Harr. simpl.
  rewrite Harr. done.
Qed.

Lemma cloneAppend_spec σ s bs values :
  slice_elems σ s = Some bs → length bs = s_len s →
  cloneAppend s values σ
  = Some ({| s_array := Some (length (arrays σ));
             s_len := s_len s + length values;
             s_cap := s_len s + length values |},
          {| encoders := encoders σ;
             arrays := arrays σ ++ [bs ++ values];
             errs := errs σ |}).
Proof.
  intros Hbs Hlen.
  unfold cloneAppend, cloneSlice, mbind, Go_bind. rewrite Hbs. simpl.
  unfold make, mbind, Go_bind, mret, Go_ret, new_array. simpl.
  erewrite append_fits; [|apply lookup_snoc|simpl; lia]. simpl.
  rewrite insert_snoc.
  erewrite append_fits; [|apply lookup_snoc|simpl; lia]. simpl.
  rewrite insert_snoc, Hlen. do 4 f_equal.
  rewrite <-Hlen, drop_replicate, take_app_length.
  rewrite drop_ge by (rewrite length_app, length_replicate; lia).
  by rewrite app_nil_r.
Qed.

(** Without the copy, an append within capacity is seen through every
    slice on the same array: this is what [cloneAppend] rules out. *)
Lemma append_within_capacity_is_shared :
  let σ := {| encoders := []; arrays := [[groupBuilder "a"; nilFunc]]; errs := [] |} in
  let s := {| s_array := Some 0; s_len := 1; s_cap := 2 |} in
  let sibling := {| s_array := Some 0; s_len := 2; s_cap := 2 |} in
  ∃ s' σ',
    append s [groupBuilder "b"] σ = Some (s', σ')
    ∧ slice_elems σ sibling = Some [groupBuilder "a"; nilFunc]
    ∧ slice_elems σ' sibling = Some [groupBuilder "a"; groupBuilder "b"].
Proof. by eexists _, _. Qed.

Lemma index_builders σ h bs i :
  builders σ h bs → i < length bs → index σ (attrBuilders h) i = bs !! i.
Proof.
  intros [Hbs Hlen] Hi. unfold index. rewrite decide_True by lia.
  unfold slice_elems in Hbs. destruct (s_array (attrBuilders h)) as [p|]; simpl.
  - destruct (arrays σ !! p) as [a|]; simpl in *; [|done].
    injection Hbs as <-. rewrite lookup_take_lt by lia. done.
  - injection Hbs as <-. simpl in Hi. lia.
Qed.

Section Derivations.
Context {G : Goldjson}.

Lemma NewHandler_spec w cfg σ :
NewHandler w cfg σ
= Some ({| encoder := length (encoders σ); config := cfg; attrBuilders := nilSlice |},
        {| encoders := encoders σ ++
             [{| enc_w := w; enc_keys := prepared_keys |}];
           arrays := arrays σ;
           errs := errs σ |}).
Proof.
unfold NewHandler, NewEncoder, PrepareKey, mbind, Go_bind, mret, Go_ret,
  new_encoder, load_encoder, store_encoder. simpl.
repeat (rewrite ?lookup_snoc, ?insert_snoc; simpl). done.
Qed.

Lemma WithAttrs_spec σ h bs as_ :
builders σ h bs →
WithAttrs h as_ σ
= Some ({| encoder := encoder h; config := config h;
           attrBuilders := {| s_array := Some (length (arrays σ));
                              s_len := s_len (attrBuilders h) + 1;
                              s_cap := s_len (attrBuilders h) + 1 |} |},
        {| encoders := encoders σ;
           arrays := arrays σ ++
             [bs ++ [staticBuilder (as_ ≫= attr_events) (length (errs σ))]];
           errs := errs σ ++ [StaticFields_w (as_ ≫= attr_events)] |}).
Proof.
intros [Hbs Hlen]. unfold WithAttrs.
rewrite range_addAttr_addAttr. unfold NewStaticFields, write. simpl.
unfold mbind, Go_bind, mret, Go_ret, new_err, store_err. simpl.
rewrite lookup_snoc; simpl. rewrite insert_snoc.
erewrite cloneAppend_spec; [|exact Hbs|exact Hlen]. simpl.
rewrite lookup_snoc; simpl. rewrite insert_snoc. done.
Qed.

Lemma WithGroup_spec σ h bs e name :
builders σ h bs → encoders σ !! encoder h = Some e →
WithGroup h name σ
= Some ({| encoder := length (encoders σ); config := config h;
           attrBuilders := {| s_array := Some (length (arrays σ));
                              s_len := s_len (attrBuilders h) + 1;
                              s_cap := s_len (attrBuilders h) + 1 |} |},
        {| encoders := encoders σ ++
             [{| enc_w := enc_w e; enc_keys := enc_keys e ++ [name] |}];
           arrays := arrays σ ++ [bs ++ [groupBuilder name]];
           errs := errs σ |}).
Proof.
intros [Hbs Hlen] He. unfold WithGroup, Clone, PrepareKey.
unfold mbind, Go_bind, mret, Go_ret, load_encoder, store_encoder, new_encoder. simpl.
rewrite He. simpl. rewrite lookup_snoc; simpl. rewrite lookup_snoc; simpl.
rewrite insert_snoc.
erewrite cloneAppend_spec; [|exact Hbs|exact Hlen]. done.
Qed.
End Derivations.

(** ** The replay of the steps, and Handle as a whole *)

Section ReplayFacts.
Context {G : Goldjson}.

Lemma addAttrs_loop_take σ h bs :
  builders σ h bs →
  ∀ m j b, j + m = length bs →
    addAttrs_loop σ h (seq j m) b = Some (replay_first_outermost σ h (take m bs) b).
Proof.
  intros Hbs. induction m as [|m IH]; intros j b Hj; simpl.
  - done.
  - destruct Hbs as [Hel Hlen].
    replace (s_len (attrBuilders h) - 1 - j) with m by lia.
    rewrite (index_builders σ h bs m) by (done || lia).
    destruct (lookup_lt_is_Some_2 bs m) as [f Hf]; [lia|].
    rewrite Hf. simpl. rewrite IH by lia.
    rewrite (take_S_r _ _ _ Hf). unfold replay_first_outermost.
    by rewrite foldr_app.
Qed.

Lemma addAttrs_replay σ h bs ctx l r :
  builders σ h bs →
  addAttrs σ h ctx l r
  = replay_first_outermost σ h bs (λ ctx l, Some (addAttrsRaw h ctx l r)) ctx l.
Proof.
  intros Hbs. unfold addAttrs. destruct Hbs as [Hel Hlen].
  destruct (decide (s_len (attrBuilders h) = 0)) as [H0|H0].
  - rewrite H0 in Hlen. by destruct bs.
  - rewrite (addAttrs_loop_take σ h bs) by (done || lia). simpl.
    by rewrite <-Hlen, firstn_all.
Qed.

Lemma replay_spec σ h bs (terminal : Next) e_t evs_t :
  Forall (builder_ok σ) bs →
  (∀ ctx l, terminal ctx l = Some (e_t, write l evs_t)) →
  ∀ ctx l, replay_first_outermost σ h bs terminal ctx l
           = Some (pipeline_error σ bs e_t, write l (pipeline_events bs evs_t)).
Proof.
  intros Hok Ht. induction Hok as [|f bs Hf _ IH]; intros ctx l; [apply Ht|].
  change (replay_first_outermost σ h (f :: bs) terminal ctx l)
    with (call_attrBuilder σ f ctx h l (replay_first_outermost σ h bs terminal)).
  destruct f as [|staticFields p|name]; [destruct Hf| |].
  - change (pipeline_error σ (staticBuilder staticFields p :: bs) e_t)
      with (errors_Join [err_at σ p; pipeline_error σ bs e_t]).
    destruct (lookup_lt_is_Some_2 _ _ Hf) as [e He].
    unfold call_attrBuilder, err_at. rewrite IH, He. simpl.
    by rewrite emit_write, write_write.
  - unfold call_attrBuilder. rewrite IH. simpl.
    by rewrite !emit_write, !write_write.
Qed.

Context {R : Runtime}.

Lemma Handle_spec σ h bs e ctx r :
  encoders σ !! encoder h = Some e → builders σ h bs → Forall (builder_ok σ) bs →
  Handle σ h ctx r
  = Some (errors_Join [pipeline_error σ bs (attrs_error (r_Attrs r));
                       enc_w e (Handle_events h bs ctx r)],
          Handle_events h bs ctx r).
Proof.
  intros He Hbs Hok. unfold Handle, NewLine. rewrite He. simpl.
  rewrite fixed_fields_spec, (addAttrs_replay σ h bs) by done.
  erewrite replay_spec;
    [|done|intros; unfold addAttrsRaw; by rewrite range_addAttr_addAttr].
  reflexivity.
Qed.
End ReplayFacts.

(** ** Heap growth preserves handlers *)

Lemma extends_refl σ : extends σ σ.
Proof. by split. Qed.

Lemma extends_trans σ1 σ2 σ3 : extends σ1 σ2 → extends σ2 σ3 → extends σ1 σ3.
Proof. intros [] []. split; by etrans. Qed.

Lemma slice_elems_extends σ σ' s bs :
  slice_elems σ s = Some bs → extends σ σ' → slice_elems σ' s = Some bs.
Proof.
  intros Hbs [_ Harr _]. unfold slice_elems in *.
  destruct (s_array s) as [p|]; [|done].
  destruct (arrays σ !! p) as [a|] eqn:Ha; [|done].
  by rewrite (prefix_lookup_Some _ _ _ _ Ha Harr).
Qed.

Lemma builders_extends σ σ' h bs : builders σ h bs → extends σ σ' → builders σ' h bs.
Proof. intros [Hbs Hlen] Hext. split; [|done]. by eapply slice_elems_extends. Qed.

Lemma builder_ok_extends σ σ' f : builder_ok σ f → extends σ σ' → builder_ok σ' f.
Proof.
  intros Hf [_ _ Herr]. destruct f as [|staticFields p|name]; simpl in *; [done| |done].
  apply prefix_length in Herr. lia.
Qed.

Lemma err_at_extends σ σ' p : p < length (errs σ) → extends σ σ' → err_at σ' p = err_at σ p.
Proof.
  intros Hp [_ _ Herr]. unfold err_at. by rewrite (prefix_lookup_lt _ _ _ Hp Herr).
Qed.

Lemma pipeline_error_extends σ σ' bs e :
  Forall (builder_ok σ) bs → extends σ σ' → pipeline_error σ' bs e = pipeline_error σ bs e.
Proof.
  intros Hok Hext. induction Hok as [|f bs Hf _ IH]; [done|].
  destruct f as [|staticFields p|name]; [destruct Hf| |exact IH].
  change (errors_Join [err_at σ' p; pipeline_error σ' bs e]
          = errors_Join [err_at σ p; pipeline_error σ bs e]).
  by rewrite IH, (err_at_extends σ σ').
Qed.

Lemma builder_errors_extends σ σ' bs :
  Forall (builder_ok σ) bs → extends σ σ' → builder_errors σ' bs = builder_errors σ bs.
Proof.
  intros Hok Hext. unfold builder_errors.
  induction Hok as [|f bs Hf _ IH]; [done|]. rewrite !bind_cons, IH. f_equal.
  destruct f as [|staticFields p|name]; [done| |done].
  by rewrite (err_at_extends σ σ').
Qed.

Lemma valid_extends σ σ' h : valid σ h → extends σ σ' → valid σ' h.
Proof.
  intros [Henc (bs & Hbs & Hok)] Hext. split.
  - destruct Hext as [Hp _ _]. apply prefix_length in Hp. lia.
  - exists bs. split; [by eapply builders_extends|].
    eapply Forall_impl; [exact Hok|]. intros f Hf. by eapply builder_ok_extends.
Qed.

Lemma slice_elems_new es arrs errs' arr n c :
  n = length arr →
  slice_elems {| encoders := es; arrays := arrs ++ [arr]; errs := errs' |}
    {| s_array := Some (length arrs); s_len := n; s_cap := c |} = Some arr.
Proof.
  intros ->. unfold slice_elems. simpl. rewrite lookup_snoc. simpl.
  by rewrite firstn_all.
Qed.

Section Frame.
Context {G : Goldjson}.

Lemma Handle_extends {R : Runtime} σ σ' h ctx r :
  valid σ h → extends σ σ' → Handle σ' h ctx r = Handle σ h ctx r.
Proof.
  intros [Henc (bs & Hbs & Hok)] Hext.
  destruct (lookup_lt_is_Some_2 _ _ Henc) as [e He].
  rewrite (Handle_spec σ h bs e) by done.
  rewrite (Handle_spec σ' h bs e).
  - by rewrite (pipeline_error_extends σ σ').
  - destruct Hext as [Hp _ _]. by eapply prefix_lookup_Some.
  - by eapply builders_extends.
  - eapply Forall_impl; [exact Hok|]. intros f Hf. by eapply builder_ok_extends.
Qed.

Lemma valid_NewHandler w cfg σ h σ' :
  NewHandler w cfg σ = Some (h, σ') →
  valid σ' h ∧ extends σ σ' ∧ builders σ' h [].
Proof.
  rewrite NewHandler_spec. intros [= <- <-]. split; [|split].
  - split; [simpl; rewrite length_app; simpl; lia|].
    exists []. by repeat split.
  - split; simpl; [by apply prefix_app_r|done|done].
  - by split.
Qed.

Lemma derive_spec d σ h bs :
  valid σ h → builders σ h bs →
  ∃ h' σ' f, derive d h σ = Some (h', σ')
    ∧ extends σ σ' ∧ builders σ' h' (bs ++ [f]) ∧ valid σ' h'
    ∧ config h' = config h
    ∧ match d with
      | byWithAttrs as_ =>
          f = staticBuilder (as_ ≫= attr_events) (length (errs σ))
          ∧ err_at σ' (length (errs σ)) = StaticFields_w (as_ ≫= attr_events)
          ∧ encoder h' = encoder h
      | byWithGroup name => f = groupBuilder name
      end.
Proof.
  intros [Henc (bs' & Hbs' & Hok)] Hbs.
  assert (bs' = bs) as -> by (destruct Hbs, Hbs'; congruence).
  destruct (lookup_lt_is_Some_2 _ _ Henc) as [e He].
  destruct d as [as_|name]; simpl.
  - rewrite (WithAttrs_spec σ h bs) by done.
    set (σ' := mkHeap _ _ _). set (f := staticBuilder _ _).
    assert (extends σ σ') as Hext by (split; simpl; by try apply prefix_app_r).
    assert (builders σ' (mkHandler (encoder h) (config h)
              (mkSlice (Some (length (arrays σ))) (s_len (attrBuilders h) + 1)
                 (s_len (attrBuilders h) + 1))) (bs ++ [f])) as Hbs2.
    { destruct Hbs as [_ Hlen]. split; [apply slice_elems_new|];
        rewrite length_app; simpl; lia. }
    eexists _, σ', f. split; [done|]. split; [done|]. split; [done|].
    split; [|split; [done|]].
    + split; [exact Henc|].
      exists (bs ++ [f]). split; [done|]. apply Forall_app. split.
      * eapply Forall_impl; [exact Hok|]. intros g Hg. by eapply builder_ok_extends.
      * constructor; [|done]. simpl. rewrite length_app. simpl. lia.
    + split; [done|]. split; [|done]. unfold err_at. simpl. by rewrite lookup_snoc.
  - rewrite (WithGroup_spec σ h bs e) by done.
    set (σ' := mkHeap _ _ _). set (f := groupBuilder _).
    assert (extends σ σ') as Hext by (split; simpl; by try apply prefix_app_r).
    eexists _, σ', f. split; [done|]. split; [done|].
    assert (builders σ' (mkHandler (length (encoders σ)) (config h)
              (mkSlice (Some (length (arrays σ))) (s_len (attrBuilders h) + 1)
                 (s_len (attrBuilders h) + 1))) (bs ++ [f])) as Hbs2.
    { destruct Hbs as [_ Hlen]. split; [apply slice_elems_new|];
        rewrite length_app; simpl; lia. }
    split; [done|]. split; [|done]. split.
    + simpl. rewrite length_app. simpl. lia.
    + exists (bs ++ [f]). split; [done|]. apply Forall_app. split.
      * eapply Forall_impl; [exact Hok|]. intros g Hg. by eapply builder_ok_extends.
      * by constructor.
Qed.
End Frame.

(** ** Facts the properties below share *)

Lemma valid_base : valid base_heap base_handler.
Proof. split; [simpl; lia|]. exists []. by repeat split. Qed.

Lemma builders_base : builders base_heap base_handler [].
Proof. by split. Qed.

Lemma severity_monotone l1 l2 :
  (l1 ≤ l2)%Z → severity_rank (severity l1) ≤ severity_rank (severity l2).
Proof.
  intros Hle. unfold severity, LevelError, LevelWarn, LevelInfo.
  repeat (case_match; try (exfalso; lia)); vm_compute; lia.
Qed.

Lemma severity_buckets_eq level :
  severity level
  = if (level <? LevelInfo)%Z then "DEBUG"
    else if (level <? LevelWarn)%Z then "INFO"
    else if (level <? LevelError)%Z then "WARN"
    else "ERROR".
Proof.
  unfold severity, LevelError, LevelWarn, LevelInfo.
  repeat case_match; try done; lia.
Qed.

Lemma valid_set_config σ h cfg : valid σ h → valid σ (set_config h cfg).
Proof. done. Qed.

Lemma trace_not_stored ctx :
  trace_stored ctx = false → ctx_Value ctx traceContextKeyT = None.
Proof.
  induction ctx as [|parent IH key val]; [done|]. simpl.
  destruct key; try done; intros H; rewrite decide_False by done; auto.
Qed.

Lemma obj_map_app fs1 fs2 :
  obj_map (fs1 ++ fs2) = foldl (λ m kv, <[kv.1 := kv.2]> m) (obj_map fs1) fs2.
Proof. unfold obj_map. by rewrite foldl_app. Qed.

Lemma labels_of_shadowing ctx :
  labels_of (labelsFromContext (shadowing ctx))
  = labels_of (labelsFromContext ctx)
    ++ [NewLabel "a" "1"; NewLabel "b" "2"; NewLabel "b" "9"; NewLabel "c" "3"].
Proof.
  unfold shadowing, AddLabels, labelsFromContext. simpl.
  by rewrite <-app_assoc.
Qed.

Lemma shadowing_map (m : gmap string Json) :
  <["c" := JString "3"]> (<["b" := JString "9"]> (<["b" := JString "2"]>
     (<["a" := JString "1"]> m)))
  = {[ "a" := JString "1"; "b" := JString "9"; "c" := JString "3" ]} ∪ m.
Proof.
  apply map_eq. intros k.
  rewrite lookup_union, !lookup_insert, lookup_singleton.
  repeat case_decide; subst; try done; by destruct (m !! _).
Qed.

Lemma pipeline_error_nil σ bs e :
  pipeline_error σ bs e = None ↔ Forall (eq None) (builder_errors σ bs) ∧ e = None.
Proof.
  induction bs as [|f bs IH].
  - change (e = None ↔ Forall (eq (None : error)) [] ∧ e = None). rewrite Forall_nil. tauto.
  - destruct f as [|staticFields p|name]; try exact IH.
    change (errors_Join [err_at σ p; pipeline_error σ bs e] = None
            ↔ Forall (eq None) (err_at σ p :: builder_errors σ bs) ∧ e = None).
    rewrite errors_Join2_nil, Forall_cons, IH.
    split; [intros [-> [? ?]]|intros [[<- ?] ?]]; done.
Qed.

Lemma pipeline_error_leaves σ bs e :
  error_leaves (pipeline_error σ bs e)
  = (builder_errors σ bs ≫= error_leaves) ++ error_leaves e.
Proof.
  induction bs as [|f bs IH]; [done|].
  destruct f as [|staticFields p|name]; try exact IH.
  change (error_leaves (errors_Join [err_at σ p; pipeline_error σ bs e])
          = ((err_at σ p :: builder_errors σ bs) ≫= error_leaves) ++ error_leaves e).
  rewrite errors_Join2_leaves, IH, bind_cons. by rewrite <-app_assoc.
Qed.

Lemma attrs_error_nil {G : Goldjson} attrs :
  attrs_error attrs = None ↔ Forall (eq None) (attrs ≫= attr_failures).
Proof.
  unfold attrs_error.
  rewrite <-(foldl_fmap (λ err e, errors_Join [err; e]) None attrs attr_error).
  rewrite join_loop_nil.
  assert (Forall (eq None) (attr_error <$> attrs)
          ↔ Forall (eq None) (attrs ≫= attr_failures)) as ->; [|tauto].
  induction attrs as [|a attrs IH]; [done|].
  rewrite fmap_cons, bind_cons, Forall_cons, Forall_app, <-IH, <-attr_error_nil.
  split; intros [? ?]; done.
Qed.

Lemma attrs_error_leaves {G : Goldjson} attrs :
  error_leaves (attrs_error attrs) = (attrs ≫= attr_failures) ≫= error_leaves.
Proof.
  unfold attrs_error.
  rewrite <-(foldl_fmap (λ err e, errors_Join [err; e]) None attrs attr_error).
  rewrite join_loop_leaves. simpl.
  induction attrs as [|a attrs IH]; [done|].
  by rewrite fmap_cons, !bind_cons, bind_app, IH, attr_error_leaves.
Qed.

Lemma Handle_error_leaves {G : Goldjson} σ bs attrs (end_error : error) :
  error_leaves (errors_Join [pipeline_error σ bs (attrs_error attrs); end_error])
  = (builder_errors σ bs ++ (attrs ≫= attr_failures) ++ [end_error]) ≫= error_leaves.
Proof.
  rewrite errors_Join2_leaves, pipeline_error_leaves, attrs_error_leaves.
  rewrite !bind_app. simpl. by rewrite app_nil_r, <-app_assoc.
Qed.

(** A valid handler has steps and an encoder. *)
Lemma valid_inv σ h :
  valid σ h →
  ∃ bs e, builders σ h bs ∧ Forall (builder_ok σ) bs ∧ encoders σ !! encoder h = Some e.
Proof.
  intros [Henc (bs & Hbs & Hok)].
  destruct (lookup_lt_is_Some_2 _ _ Henc) as [e He]. by exists bs, e.
Qed.

Lemma builders_inj σ h bs bs' : builders σ h bs → builders σ h bs' → bs = bs'.
Proof. intros [H _] [H' _]. congruence. Qed.

Lemma NewHandler_base :
  NewHandler IgnoreWriter {| ProjectID := "proj"; Level := None |} emptyHeap
  = Some (base_handler, base_heap).
Proof. reflexivity. Qed.

Lemma two_steps_eq : two_steps = Some (two_steps_handler, two_steps_heap).
Proof. reflexivity. Qed.

Lemma builders_two_steps :
  builders two_steps_heap two_steps_handler
    [staticBuilder [AddInt64 "X" 1] 0; groupBuilder "G"].
Proof. by split. Qed.

Lemma valid_two_steps : valid two_steps_heap two_steps_handler.
Proof.
  split; [simpl; lia|]. eexists. split; [apply builders_two_steps|].
  repeat constructor.
Qed.

Lemma WithAttrs_captures_End {G : Goldjson} σ h as_ :
  valid σ h →
  ∃ h' σ' bs p,
    WithAttrs h as_ σ = Some (h', σ')
    ∧ builders σ' h' (bs ++ [staticBuilder (as_ ≫= attr_events) p])
    ∧ err_at σ' p = StaticFields_w (as_ ≫= attr_events).
Proof.
  intros Hv. pose proof Hv as [_ (bs & Hbs & _)].
  destruct (derive_spec (byWithAttrs as_) σ h bs Hv Hbs)
    as (h' & σ' & f & Hd & _ & Hb & _ & _ & -> & He & _).
  by exists h', σ', bs, (length (errs σ)).
Qed.


(** * The claims *)

(** ** C1: nesting order of bound attributes, groups and record attributes *)

(** Claim C1. Take the handler that [NewHandler] returns (on any heap, for
    any writer and configuration), derive from it with [WithAttrs [X]],
    then [WithGroup name], then [WithAttrs [Y]], and emit a record whose
    attribute is [Z]. The derivations and [Handle] all return, and the line
    handed to the writer is: the fixed fields, the static fields of [X],
    the group [name] opened, the static fields of [Y], the calls for [Z],
    the group closed. Where the encoder accepts the timestamp and the
    calls for [X], [Y] and [Z] read back as the members [fx], [fy] and
    [fz], with [fx] and [fy] not empty, the line reads back as an object
    with [fx] at the top level, after the fixed fields, and [name] an
    object holding [fy] followed by [fz]. *)
Theorem nesting_order {G : Goldjson} {R : Runtime} σ w cfg name X Y Z ctx r :
  ∃ h σ' err,
    (h ← NewHandler w cfg; h ← WithAttrs h [X]; h ← WithGroup h name; WithAttrs h [Y]) σ
    = Some (h, σ')
    ∧ Handle σ' h ctx (with_attrs r [Z])
      = Some (err,
              fixed_events h ctx (with_attrs r [Z])
              ++ [AddStaticFields (attr_events X); StartRecord name;
                  AddStaticFields (attr_events Y)]
              ++ attr_events Z ++ [EndRecord])
    ∧ ∀ fx fy fz,
        AddTime_error (Time_Round0 (r_Time r)) = None →
        object_of (attr_events X) = Some fx → fx ≠ [] →
        object_of (attr_events Y) = Some fy → fy ≠ [] →
        object_of (attr_events Z) = Some fz →
        object_of (fixed_events h ctx (with_attrs r [Z])
                   ++ [AddStaticFields (attr_events X); StartRecord name;
                       AddStaticFields (attr_events Y)]
                   ++ attr_events Z ++ [EndRecord])
        = Some (fixed_fields h ctx (with_attrs r [Z])
                ++ fx ++ [(name, JObject (fy ++ fz))]).
Proof.
  destruct (NewHandler w cfg σ) as [[h0 σ0]|] eqn:H0; [|by rewrite NewHandler_spec in H0].
  destruct (valid_NewHandler _ _ _ _ _ H0) as (Hv0 & _ & Hb0).
  destruct (derive_spec (byWithAttrs [X]) σ0 h0 [] Hv0 Hb0)
    as (h1 & σ1 & f1 & H1 & _ & Hb1 & Hv1 & _ & -> & _).
  destruct (derive_spec (byWithGroup name) σ1 h1 _ Hv1 Hb1)
    as (h2 & σ2 & f2 & H2 & _ & Hb2 & Hv2 & _ & ->).
  destruct (derive_spec (byWithAttrs [Y]) σ2 h2 _ Hv2 Hb2)
    as (h3 & σ3 & f3 & H3 & _ & Hb3 & Hv3 & _ & -> & _).
  simpl in H1, H2, H3.
  destruct Hv3 as [Henc (bs & Hbs & Hok)].
  assert (bs = (([] ++ [staticBuilder ([X] ≫= attr_events) (length (errs σ0))])
                ++ [groupBuilder name])
               ++ [staticBuilder ([Y] ≫= attr_events) (length (errs σ2))]) as ->
    by (destruct Hbs, Hb3; congruence).
  destruct (lookup_lt_is_Some_2 _ _ Henc) as [e He].
  eexists h3, σ3, _. split; [|split].
  - unfold mbind, Go_bind. by rewrite H0, H1, H2, H3.
  - rewrite (Handle_spec σ3 h3 _ e) by done.
    unfold Handle_events. simpl. by rewrite !app_nil_r.
  - intros fx fy fz Ht HX HXne HY HYne HZ.
    rewrite object_of_attr in HX, HY, HZ.
    assert (attr_events X ≠ []) as HXw.
    { intros Hnil. pose proof (attr_fields_renders X fx HX [] [] []) as Hp.
      rewrite Hnil in Hp. simpl in Hp. by injection Hp as <-. }
    assert (attr_events Y ≠ []) as HYw.
    { intros Hnil. pose proof (attr_fields_renders Y fy HY [] [] []) as Hp.
      rewrite Hnil in Hp. simpl in Hp. by injection Hp as <-. }
    apply object_of_renders.
    + rewrite forallb_app, (plain_all_filled (fixed_events _ _ _))
        by apply fixed_events_plain.
      rewrite forallb_app, forallb_app.
      rewrite (plain_all_filled (attr_events Z)) by apply attr_events_plain.
      change (forallb filled [AddStaticFields (attr_events X); StartRecord name;
                              AddStaticFields (attr_events Y)])
        with (filled (AddStaticFields (attr_events X))
              && (true && (filled (AddStaticFields (attr_events Y)) && true))).
      by rewrite !filled_static by (done || apply attr_events_plain).
    + assert (inline_line ([AddStaticFields (attr_events X); StartRecord name;
                             AddStaticFields (attr_events Y)]
                            ++ attr_events Z ++ [EndRecord])
              = attr_events X
                ++ StartRecord name :: (attr_events Y ++ attr_events Z) ++ [EndRecord])
        as Hin.
      { rewrite inline_line_app.
        rewrite (inline_line_plain (attr_events Z ++ [EndRecord]))
          by (apply Forall_app; split; [apply attr_events_plain|by repeat constructor]).
        unfold inline_line. rewrite !bind_cons, !inline_AddStaticFields.
        rewrite !inline_line_plain by apply attr_events_plain.
        simpl. rewrite app_nil_r, <-!app_assoc. done. }
      rewrite inline_line_app, Hin.
      rewrite (inline_line_plain (fixed_events _ _ _)) by apply fixed_events_plain.
      apply renders_app; [by apply fixed_renders|].
      apply renders_app; [by apply attr_fields_renders|].
      apply renders_record; [|by destruct fy].
      apply renders_app; by apply attr_fields_renders.
Qed.

Lemma nesting_order_witness :
  AddTime_error (Goldjson := test_goldjson)
    (Time_Round0 (r_Time (empty_record "nested" LevelError))) = None
  ∧ object_of (G := test_goldjson) (attr_events (mkAttr "X" (Int64Value 1)))
    = Some [("X", JInt64 1)]
  ∧ [("X", JInt64 1)] ≠ []
  ∧ object_of (G := test_goldjson) (attr_events (mkAttr "Y" (StringValue "y")))
    = Some [("Y", JString "y")]
  ∧ [("Y", JString "y")] ≠ []
  ∧ object_of (G := test_goldjson)
      (attr_events (mkAttr "Z" (GroupValue [mkAttr "t" (BoolValue true)])))
    = Some [("Z", JObject [("t", JBool true)])]
  ∧ ∃ line,
      object_of (G := test_goldjson) line
      = Some (fixed_fields (G := test_goldjson) (R := test_runtime) base_handler Background
                (empty_record "nested" LevelError)
              ++ [("X", JInt64 1)]
              ++ [("G", JObject ([("Y", JString "y")]
                                 ++ [("Z", JObject [("t", JBool true)])]))]).
Proof.
  destruct (nesting_order (G := test_goldjson) (R := test_runtime) emptyHeap IgnoreWriter
              {| ProjectID := "proj"; Level := None |} "G"
              (mkAttr "X" (Int64Value 1)) (mkAttr "Y" (StringValue "y"))
              (mkAttr "Z" (GroupValue [mkAttr "t" (BoolValue true)]))
              Background (empty_record "nested" LevelError))
    as (h & σ' & err & _ & _ & Hobj).
  repeat (split; [done|]).
  eexists.
  exact (Hobj [("X", JInt64 1)] [("Y", JString "y")] [("Z", JObject [("t", JBool true)])]
           eq_refl eq_refl ltac:(done) eq_refl ltac:(done) eq_refl).
Defined.

(** ** C2: the order in which addAttrs replays the steps *)

(** Claim C2, amended. [addAttrs] composes the steps so that the
    first-appended step runs first (outermost) and is given, as [next], the
    replay of the steps appended after it; the terminal, which writes the
    record's own attributes, is innermost, after the last-appended step.
    With no step the terminal runs directly. *)
Theorem addAttrs_first_outermost {G : Goldjson} σ h bs ctx l r :
  builders σ h bs →
  let terminal : Next := λ ctx l, Some (addAttrsRaw h ctx l r) in
  addAttrs σ h ctx l r = replay_first_outermost σ h bs terminal ctx l
  ∧ replay_first_outermost σ h [] terminal ctx l = Some (addAttrsRaw h ctx l r)
  ∧ ∀ f steps,
      replay_first_outermost σ h (f :: steps) terminal ctx l
      = call_attrBuilder σ f ctx h l (replay_first_outermost σ h steps terminal).
Proof.
  intros Hbs terminal. split; [by apply addAttrs_replay|]. by split.
Qed.

Lemma addAttrs_first_outermost_witness :
  builders two_steps_heap two_steps_handler
    [staticBuilder [AddInt64 "X" 1] 0; groupBuilder "G"]
  ∧ (lw_buf ∘ snd) <$> addAttrs (G := test_goldjson) two_steps_heap two_steps_handler
       Background (mkLineWriter IgnoreWriter []) (empty_record "" 0)
    = Some [AddStaticFields [AddInt64 "X" 1]; StartRecord "G"; EndRecord].
Proof.
  split; [apply builders_two_steps|].
  destruct (addAttrs_first_outermost (G := test_goldjson)
              two_steps_heap two_steps_handler _ Background
              (mkLineWriter IgnoreWriter []) (empty_record "" 0) builders_two_steps)
    as [-> _].
  reflexivity.
Defined.

(** Claim C2 as stated, with the last-appended step outermost, does not
    hold: on the handler built by [WithAttrs] and then [WithGroup "G"], the
    code writes the static fields and then the empty group, whereas the
    stated order puts the static fields inside the group. *)
Lemma replays_last_outermost_counterexample :
  ¬ replays_last_outermost (G := test_goldjson).
Proof.
  intros H.
  specialize (H two_steps_heap two_steps_handler
                [staticBuilder [AddInt64 "X" 1] 0; groupBuilder "G"]
                Background (mkLineWriter IgnoreWriter []) (empty_record "" 0)
                builders_two_steps).
  vm_compute in H. specialize (H ltac:(discriminate)). discriminate H.
Qed.

(** ** C3: a serialization failure inside WithAttrs *)

(** Claim C3, on the code. [WithAttrs] with an attribute whose marshalling
    fails raises nothing at derivation time, but the failure does not
    reach [Handle] either: the assignment [err = w.End()] replaces what the
    loop had joined into [err] before the closure ever reads it. With an
    encoder whose static-fields writer accepts the fields, the captured
    [err] is nil and [Handle] on the derived handler returns nil. *)
Theorem WithAttrs_error_lost :
  erroring_static = Some (erroring_handler, erroring_heap)
  ∧ attr_error (G := test_goldjson) (mkAttr "Erroring" (AnyValue ErroringMarshal))
    = Some (errorString "cannot be marshaled")
  ∧ Handle (G := test_goldjson) (R := test_runtime) erroring_heap erroring_handler
      Background (empty_record "attrs" LevelError)
    = Some (None,
            [ AddString fieldMessage "attrs";
              AddTime fieldTimestamp {| unixNano := 0; monotonic := None |};
              AddString fieldSeverity "ERROR";
              StartRecord fieldSourceLocation;
              AddString fieldSourceFile "main.go";
              AddInt64 fieldSourceLine 0;
              AddString fieldSourceFunction "main.main";
              EndRecord;
              AddStaticFields [AddMarshal "Erroring" ErroringMarshal] ]).
Proof. split; [reflexivity|]. split; reflexivity. Qed.

(** ** C4: errors are accumulated, nothing is skipped *)

(** Claim C4. For a valid handler with steps [bs], [Handle] returns; the
    line it hands to the writer is [Handle_events], which is every fixed
    field, every step and every attribute of the record, whatever failed
    (it does not depend on the encoder's failures at all). The error
    returned is the join of the steps' and the terminal's errors with the
    error of [End]: its messages are those of every step's [err], of every
    failing call made for the record's attributes, and of [End], in that
    order, and it is nil exactly when all of these are nil. *)
Theorem Handle_accumulates {G : Goldjson} {R : Runtime} σ h bs e ctx r :
  valid σ h → builders σ h bs → encoders σ !! encoder h = Some e →
  let line := Handle_events h bs ctx r in
  let results := builder_errors σ bs ++ (r_Attrs r ≫= attr_failures) ++ [enc_w e line] in
  ∃ err,
    Handle σ h ctx r = Some (err, line)
    ∧ err = errors_Join [pipeline_error σ bs (attrs_error (r_Attrs r)); enc_w e line]
    ∧ error_leaves err = results ≫= error_leaves
    ∧ (err = None ↔ Forall (eq None) results).
Proof.
  intros Hv Hbs He line results.
  destruct (valid_inv σ h Hv) as (bs' & _ & Hbs' & Hok & _).
  rewrite (builders_inj σ h bs' bs Hbs' Hbs) in Hok.
  eexists. split; [by apply (Handle_spec σ h bs e)|]. split; [done|].
  fold line. unfold results. split; [apply Handle_error_leaves|].
  rewrite errors_Join2_nil, pipeline_error_nil, attrs_error_nil.
  rewrite !Forall_app, Forall_singleton.
  split; [intros [[? ?] ->]|intros (? & ? & <-)]; done.
Qed.

Lemma Handle_accumulates_witness :
  valid base_heap base_handler
  ∧ builders base_heap base_handler []
  ∧ encoders base_heap !! encoder base_handler
    = Some {| enc_w := IgnoreWriter; enc_keys := prepared_keys |}
  ∧ ∃ err line,
      Handle (G := test_goldjson) (R := test_runtime) base_heap base_handler Background
        (with_attrs (empty_record "attrs" LevelError)
           [mkAttr "Erroring" (AnyValue ErroringMarshal);
            mkAttr "Correct" (StringValue "correct")])
      = Some (err, line)
      ∧ AddString "Correct" "correct" ∈ line
      ∧ error_leaves err = ["cannot be marshaled"].
Proof.
  split; [apply valid_base|]. split; [apply builders_base|]. split; [reflexivity|].
  destruct (Handle_accumulates (G := test_goldjson) (R := test_runtime)
              base_heap base_handler [] _ Background
              (with_attrs (empty_record "attrs" LevelError)
                 [mkAttr "Erroring" (AnyValue ErroringMarshal);
                  mkAttr "Correct" (StringValue "correct")])
              valid_base builders_base eq_refl)
    as (err & HH & _ & Hleaves & _).
  exists err. eexists. split; [exact HH|]. split.
  - apply list_elem_of_lookup. by exists 9.
  - rewrite Hleaves. reflexivity.
Defined.

(** ** C5: labels are visited parent first, later pairs shadow earlier ones *)

(** Claim C5, amended. [Iterate] visits the labels of the parent chain
    first and then the local pairs in insertion order. Under
    [AddLabels(AddLabels(ctx, a=1, b=2), b=9, c=3)], [addLabels] writes one
    labels object whose members are the labels of [ctx] followed by a=1,
    b=2, b=9, c=3; read by a consumer that keeps the last occurrence of a
    key, it is the labels object of [ctx] overridden by {a:1, b:9, c:3},
    and it is exactly {a:1, b:9, c:3} when [ctx] carries no labels. *)
Theorem labels_shadowing {G : Goldjson} h ctx l r :
  let visited := labels_of (labelsFromContext ctx)
                 ++ [NewLabel "a" "1"; NewLabel "b" "2"; NewLabel "b" "9"; NewLabel "c" "3"] in
  (∀ (S : Type) (f : Label → S → S) (s : S),
      Iterate (labelsFromContext (shadowing ctx)) f s
      = foldl (λ s label, f label s) s visited)
  ∧ addLabels h (shadowing ctx) l r
    = write l (StartRecord fieldLabels :: map label_event visited ++ [EndRecord])
  ∧ object_of (StartRecord fieldLabels :: map label_event visited ++ [EndRecord])
    = Some [(fieldLabels, JObject (map label_field visited))]
  ∧ labels_object (shadowing ctx) = obj_map (map label_field visited)
  ∧ labels_object (shadowing ctx)
    = {[ "a" := JString "1"; "b" := JString "9"; "c" := JString "3" ]} ∪ labels_object ctx
  ∧ (labels_of (labelsFromContext ctx) = [] →
     labels_object (shadowing ctx)
     = {[ "a" := JString "1"; "b" := JString "9"; "c" := JString "3" ]}).
Proof.
  intros visited.
  assert (labels_of (labelsFromContext (shadowing ctx)) = visited) as Hv
    by apply labels_of_shadowing.
  assert (labels_object (shadowing ctx)
          = {[ "a" := JString "1"; "b" := JString "9"; "c" := JString "3" ]}
            ∪ labels_object ctx) as Hm.
  { unfold labels_object. rewrite Hv. unfold visited.
    rewrite map_app, obj_map_app. apply shadowing_map. }
  split; [|split; [|split; [|split; [|split]]]].
  - intros S f s. by rewrite Iterate_labels_of, Hv.
  - rewrite addLabels_spec. unfold labels_events. rewrite Hv.
    unfold visited. by destruct (labels_of (labelsFromContext ctx)).
  - pose proof (labels_renders (shadowing ctx)) as Hr.
    unfold labels_events, labels_fields in Hr. rewrite Hv in Hr.
    assert (visited ≠ []) as Hne by (unfold visited; by destruct (labels_of _)).
    destruct visited as [|v vs] eqn:E; [done|].
    apply object_of_plain; [|done].
    constructor; [done|]. apply Forall_app. split; [|by repeat constructor].
    apply Forall_fmap, Forall_forall. by intros.
  - unfold labels_object. by rewrite Hv.
  - exact Hm.
  - intros Hnil. rewrite Hm. unfold labels_object. rewrite Hnil.
    change (obj_map (map label_field [])) with (∅ : gmap string Json).
    by rewrite (right_id_L ∅ (∪)).
Qed.

Lemma labels_shadowing_witness :
  labels_of (labelsFromContext Background) = []
  ∧ labels_object (shadowing Background)
    = {[ "a" := JString "1"; "b" := JString "9"; "c" := JString "3" ]}.
Proof.
  split; [reflexivity|].
  apply (labels_shadowing (G := test_goldjson) base_handler Background
           (mkLineWriter IgnoreWriter []) (empty_record "" 0)).
  reflexivity.
Defined.

(** Claim C5 as stated, for every context, does not hold: a context that
    already carries the label z=0 keeps it in the labels object. *)
Lemma labels_shadowing_counterexample :
  labels_object (shadowing (AddLabels Background [NewLabel "z" "0"]))
  ≠ {[ "a" := JString "1"; "b" := JString "9"; "c" := JString "3" ]}.
Proof.
  intros H. apply (f_equal (lookup "z")) in H. vm_compute in H. discriminate.
Qed.

(** ** C6: the correlation fields *)

(** Claim C6, amended. [addTrace] writes nothing when the trace id of the
    context is empty. Otherwise it writes the trace field
    ["projects/<ProjectID>/traces/<id>"], then the span id only if it is
    not empty, then the sampled flag, always. Logging "hello" at error
    level with trace id "abc" on a handler whose ProjectID is "proj" gives
    the line: message "hello", timestamp, severity "ERROR", the source
    location, the trace field ["projects/proj/traces/abc"], trace sampled
    false, and no span id. *)
Theorem trace_fields_written {G : Goldjson} {R : Runtime} h ctx l r :
  let trace := traceFromContext ctx in
  (ID trace = "" → addTrace h ctx l r = l)
  ∧ (ID trace ≠ "" →
     addTrace h ctx l r
     = write l
         ([AddString fieldTraceID
             ("projects/" +:+ ProjectID (config h) +:+ "/traces/" +:+ ID trace)]
          ++ (if decide (SpanID trace = "") then []
              else [AddString fieldTraceSpanID (SpanID trace)])
          ++ [AddBool fieldTraceSampled (Sampled trace)]))
  ∧ (∀ σ w level h0 σ0 time pc,
       NewHandler w {| ProjectID := "proj"; Level := level |} σ = Some (h0, σ0) →
       let ctx_abc := Trace_Context {| ID := "abc"; SpanID := ""; Sampled := false |} Background in
       let r := {| r_Time := time; r_Message := "hello"; r_Level := LevelError;
                   r_PC := pc; r_Attrs := [] |} in
       ∃ err,
         Handle σ0 h0 ctx_abc r
         = Some (err,
                 [ AddString fieldMessage "hello";
                   AddTime fieldTimestamp (Time_Round0 time);
                   AddString fieldSeverity "ERROR";
                   StartRecord fieldSourceLocation;
                   AddString fieldSourceFile (File (CallersFrames pc));
                   AddInt64 fieldSourceLine (FrameLine (CallersFrames pc));
                   AddString fieldSourceFunction (Function (CallersFrames pc));
                   EndRecord;
                   AddString fieldTraceID "projects/proj/traces/abc";
                   AddBool fieldTraceSampled false ])).
Proof.
  split; [|split].
  - intros H. rewrite addTrace_spec. unfold trace_events.
    rewrite decide_True by done. apply write_nil.
  - intros H. rewrite addTrace_spec. unfold trace_events.
    rewrite decide_False by done. do 2 f_equal.
    destruct (decide (SpanID (traceFromContext ctx) = ""));
      [by rewrite decide_False by auto|by rewrite decide_True].
  - intros σ w level h0 σ0 time pc Hnew.
    destruct (valid_NewHandler _ _ _ _ _ Hnew) as ([Henc _] & _ & Hbs).
    destruct (lookup_lt_is_Some_2 _ _ Henc) as [e He].
    eexists. rewrite (Handle_spec σ0 h0 [] e) by done.
    rewrite NewHandler_spec in Hnew. injection Hnew as <- <-. done.
Qed.

Lemma trace_fields_written_witness :
  ID (traceFromContext Background) = ""
  ∧ ID (traceFromContext
          (Trace_Context {| ID := "abc"; SpanID := ""; Sampled := false |} Background)) ≠ ""
  ∧ NewHandler IgnoreWriter {| ProjectID := "proj"; Level := None |} emptyHeap
    = Some (base_handler, base_heap)
  ∧ addTrace base_handler Background (mkLineWriter IgnoreWriter []) (empty_record "hello" LevelError)
    = mkLineWriter IgnoreWriter []
  ∧ addTrace base_handler
      (Trace_Context {| ID := "abc"; SpanID := ""; Sampled := false |} Background)
      (mkLineWriter IgnoreWriter []) (empty_record "hello" LevelError)
    = mkLineWriter IgnoreWriter
        [AddString fieldTraceID "projects/proj/traces/abc"; AddBool fieldTraceSampled false]
  ∧ ∃ err line,
      Handle (G := test_goldjson) (R := test_runtime) base_heap base_handler
        (Trace_Context {| ID := "abc"; SpanID := ""; Sampled := false |} Background)
        (empty_record "hello" LevelError) = Some (err, line)
      ∧ line !! 8 = Some (AddString fieldTraceID "projects/proj/traces/abc").
Proof.
  split; [reflexivity|]. split; [discriminate|]. split; [reflexivity|].
  split; [|split].
  - apply (trace_fields_written (G := test_goldjson) (R := test_runtime)
             base_handler Background (mkLineWriter IgnoreWriter [])
             (empty_record "hello" LevelError)).
    reflexivity.
  - destruct (trace_fields_written (G := test_goldjson) (R := test_runtime)
                base_handler
                (Trace_Context {| ID := "abc"; SpanID := ""; Sampled := false |} Background)
                (mkLineWriter IgnoreWriter []) (empty_record "hello" LevelError))
      as (_ & Hpresent & _).
    rewrite Hpresent by discriminate. reflexivity.
  - destruct (trace_fields_written (G := test_goldjson) (R := test_runtime)
                base_handler Background (mkLineWriter IgnoreWriter [])
                (empty_record "hello" LevelError))
      as (_ & _ & Hend).
    destruct (Hend emptyHeap IgnoreWriter None base_handler base_heap
                {| unixNano := 0; monotonic := None |} 0%Z eq_refl) as [err HH].
    exists err. eexists. split; [exact HH|reflexivity].
Defined.

(** Claim C6 as stated does not hold: the line of the example carries no
    trace field with the value "proj/traces/abc". *)
Lemma trace_field_counterexample :
  ¬ ∃ err line,
      Handle (G := test_goldjson) (R := test_runtime) base_heap base_handler
        (Trace_Context {| ID := "abc"; SpanID := ""; Sampled := false |} Background)
        (empty_record "hello" LevelError) = Some (err, line)
      ∧ AddString fieldTraceID "proj/traces/abc" ∈ line.
Proof.
  intros (err & line & H & Hin). vm_compute in H. injection H as <- <-.
  repeat (apply elem_of_cons in Hin as [Hin|Hin]; [discriminate|]).
  by apply elem_of_nil in Hin.
Qed.

(** ** C7: the severity is a step function of the level *)

(** Claim C7. For every valid handler and every record, the third call of
    the line writes the severity, which is DEBUG below [LevelInfo], INFO
    below [LevelWarn], WARN below [LevelError] and ERROR from there on,
    however far the level lies outside the named levels. It is the same
    for every configuration of the handler, and it never decreases when
    the level increases. *)
Theorem severity_is_step_function {G : Goldjson} {R : Runtime} σ h ctx r :
  valid σ h →
  ∃ err line,
    Handle σ h ctx r = Some (err, line)
    ∧ line !! 2
      = Some (AddString fieldSeverity
                (if (r_Level r <? LevelInfo)%Z then "DEBUG"
                 else if (r_Level r <? LevelWarn)%Z then "INFO"
                 else if (r_Level r <? LevelError)%Z then "WARN"
                 else "ERROR"))
    ∧ (∀ cfg, ∃ err' line',
          Handle σ (set_config h cfg) ctx r = Some (err', line')
          ∧ line' !! 2 = line !! 2)
    ∧ (∀ r', (r_Level r ≤ r_Level r')%Z →
             severity_rank (severity (r_Level r)) ≤ severity_rank (severity (r_Level r'))).
Proof.
  intros Hv. pose proof Hv as [Henc (bs & Hbs & Hok)].
  destruct (lookup_lt_is_Some_2 _ _ Henc) as [e He].
  eexists _, _. split; [by apply (Handle_spec σ h bs e)|].
  split; [by rewrite <-severity_buckets_eq|]. split.
  - intros cfg. eexists _, _. split; [by apply (Handle_spec σ _ bs e)|done].
  - intros r'. apply severity_monotone.
Qed.

Lemma severity_is_step_function_witness :
  valid base_heap base_handler
  ∧ (r_Level (empty_record "level" (LevelInfo - 1))
     ≤ r_Level (empty_record "level" LevelInfo))%Z
  ∧ ∃ err line,
      Handle (G := test_goldjson) (R := test_runtime) base_heap base_handler Background
        (empty_record "level" (LevelInfo - 1)) = Some (err, line)
      ∧ line !! 2 = Some (AddString fieldSeverity "DEBUG")
      ∧ severity_rank (severity (LevelInfo - 1)) ≤ severity_rank (severity LevelInfo).
Proof.
  split; [apply valid_base|]. split; [vm_compute; discriminate|].
  destruct (severity_is_step_function (G := test_goldjson) (R := test_runtime)
              base_heap base_handler Background (empty_record "level" (LevelInfo - 1))
              valid_base)
    as (err & line & HH & Hsev & _ & Hmono).
  exists err, line. split; [exact HH|]. split; [exact Hsev|].
  apply (Hmono (empty_record "level" LevelInfo)). vm_compute. discriminate.
Defined.

(** ** C8: deriving a handler leaves the original alone *)

(** Claim C8. For a valid handler [A], [WithAttrs] and [WithGroup] return
    a handler [B] and a heap in which the encoder of [A], the elements of
    its [attrBuilders] and the [err] variables its steps read are what
    they were; [A] and [B] are both valid there, and [Handle] through [A]
    returns, for every context and record, the error and the line it
    returned before [B] was derived. *)
Theorem derive_frame {G : Goldjson} (d : Derivation) (σ : Heap) (A : Handler) :
  valid σ A →
  ∃ B σ',
    derive d A σ = Some (B, σ')
    ∧ encoders σ' !! encoder A = encoders σ !! encoder A
    ∧ slice_elems σ' (attrBuilders A) = slice_elems σ (attrBuilders A)
    ∧ (∀ bs, builders σ A bs → builder_errors σ' bs = builder_errors σ bs)
    ∧ valid σ' A ∧ valid σ' B
    ∧ ∀ (R : Runtime) ctx r, Handle σ' A ctx r = Handle σ A ctx r.
Proof.
  intros Hv. pose proof Hv as [Henc (bs & Hbs & Hok)].
  destruct (derive_spec d σ A bs Hv Hbs) as (B & σ' & f & Hd & Hext & HB & HvB & _).
  exists B, σ'. split; [done|]. split; [|split; [|split; [|split; [|split]]]].
  - destruct Hext as [Hp _ _]. symmetry. by apply prefix_lookup_lt.
  - destruct Hbs as [Hel _]. rewrite Hel. by eapply slice_elems_extends.
  - intros bs' Hbs'. assert (bs' = bs) as -> by (destruct Hbs, Hbs'; congruence).
    by apply builder_errors_extends.
  - by eapply valid_extends.
  - done.
  - intros R ctx r. by apply Handle_extends.
Qed.

Lemma derive_frame_witness :
  valid two_steps_heap two_steps_handler
  ∧ ∃ B σ',
      derive (G := test_goldjson) (byWithAttrs [mkAttr "Y" (Int64Value 2)])
        two_steps_handler two_steps_heap = Some (B, σ')
      ∧ ∀ (R : Runtime) ctx r,
          Handle (G := test_goldjson) σ' two_steps_handler ctx r
          = Handle (G := test_goldjson) two_steps_heap two_steps_handler ctx r.
Proof.
  split; [apply valid_two_steps|].
  destruct (derive_frame (G := test_goldjson) (byWithAttrs [mkAttr "Y" (Int64Value 2)])
              two_steps_heap two_steps_handler valid_two_steps)
    as (B & σ' & Hd & _ & _ & _ & _ & _ & HA).
  by exists B, σ'.
Defined.

(** ** C9: empty groups are omitted *)

(** Claim C9. [addAttr] on a group with no child attribute leaves the line
    writer as it was and returns nil. For a valid handler with steps [bs]
    and a record that carries the group [key] between the attributes
    [before] and [after], [Handle] returns and, when the group has no
    child, the line is the fixed fields and the steps around the calls of
    [before] and [after] alone: the line of the record without the group,
    with the same error messages. When the group has a child, the calls of
    [before] are followed by [StartRecord key], the calls of the children
    in order, [EndRecord], and the calls of [after]; for a handler without
    steps, where the timestamp is accepted and the calls of [before], of
    the children and of [after] read back as [fb], [fs] (not empty) and
    [fa], the line reads back as the fixed fields, [fb], the member [key]
    holding [fs], and [fa]. *)
Theorem empty_group_omitted {G : Goldjson} {R : Runtime}
    σ h bs ctx r before after key attrs :
  valid σ h → builders σ h bs →
  (∀ l, addAttr l (mkAttr key (GroupValue [])) = (None, l))
  ∧ ∃ err line,
      Handle σ h ctx (with_attrs r (before ++ mkAttr key (GroupValue attrs) :: after))
      = Some (err, line)
      ∧ (attrs = [] →
         line = fixed_events h ctx r
                ++ pipeline_events bs ((before ≫= attr_events) ++ (after ≫= attr_events))
         ∧ ∃ err',
             Handle σ h ctx (with_attrs r (before ++ after)) = Some (err', line)
             ∧ error_leaves err = error_leaves err')
      ∧ (attrs ≠ [] →
         line = fixed_events h ctx r
                ++ pipeline_events bs
                     ((before ≫= attr_events)
                      ++ (StartRecord key :: (attrs ≫= attr_events) ++ [EndRecord])
                      ++ (after ≫= attr_events))
         ∧ ∀ fb fs fa,
             bs = [] →
             AddTime_error (Time_Round0 (r_Time r)) = None →
             object_of (before ≫= attr_events) = Some fb →
             object_of (attrs ≫= attr_events) = Some fs → fs ≠ [] →
             object_of (after ≫= attr_events) = Some fa →
             object_of line
             = Some (fixed_fields h ctx r ++ fb ++ [(key, JObject fs)] ++ fa)).
Proof.
  intros Hv Hbs. split; [done|].
  destruct (valid_inv σ h Hv) as (bs' & e & Hbs' & Hok & He).
  assert (bs' = bs) as -> by (by apply (builders_inj σ h)).
  eexists _, _. split; [by apply (Handle_spec σ h bs e)|]. split.
  - intros ->.
    assert (Handle_events h bs ctx
              (with_attrs r (before ++ mkAttr key (GroupValue []) :: after))
            = Handle_events h bs ctx (with_attrs r (before ++ after))) as Hline.
    { unfold Handle_events, fixed_events. simpl. by rewrite !bind_app, bind_cons. }
    split.
    + unfold Handle_events, fixed_events. simpl. by rewrite !bind_app, bind_cons.
    + eexists. split.
      * rewrite (Handle_spec σ h bs e) by done. by rewrite Hline.
      * rewrite Hline, !Handle_error_leaves. simpl. by rewrite !bind_app, bind_cons.
  - intros Hne.
    assert (Handle_events h bs ctx
              (with_attrs r (before ++ mkAttr key (GroupValue attrs) :: after))
            = fixed_events h ctx r
              ++ pipeline_events bs
                   ((before ≫= attr_events)
                    ++ (StartRecord key :: (attrs ≫= attr_events) ++ [EndRecord])
                    ++ (after ≫= attr_events))) as Hline.
    { unfold Handle_events, fixed_events. simpl. rewrite bind_app, bind_cons.
      by destruct attrs. }
    split; [exact Hline|].
    intros fb fs fa -> Ht Hb Hs Hfs Ha. rewrite Hline.
    rewrite object_of_attrs in Hb, Hs, Ha.
    apply object_of_plain.
    + apply Forall_app. split; [apply fixed_events_plain|]. simpl.
      apply Forall_app. split; [apply attrs_events_plain|].
      constructor; [done|]. rewrite <-app_assoc. apply Forall_app.
      split; [apply attrs_events_plain|].
      constructor; [done|]. apply attrs_events_plain.
    + apply renders_app; [by apply fixed_renders|]. simpl.
      apply renders_app; [by apply attrs_fields_renders|].
      apply (renders_app (StartRecord key :: (attrs ≫= attr_events) ++ [EndRecord])
               _ [(key, JObject fs)]); [|by apply attrs_fields_renders].
      apply renders_record; [by apply attrs_fields_renders|done].
Qed.

Lemma empty_group_omitted_witness :
  valid base_heap base_handler
  ∧ builders base_heap base_handler []
  ∧ (∃ err err' line,
        Handle (G := test_goldjson) (R := test_runtime) base_heap base_handler Background
          (with_attrs (empty_record "attrs" LevelError)
             ([mkAttr "a" (Int64Value 1)] ++ mkAttr "Group" (GroupValue []) :: []))
        = Some (err, line)
        ∧ Handle (G := test_goldjson) (R := test_runtime) base_heap base_handler Background
            (with_attrs (empty_record "attrs" LevelError) ([mkAttr "a" (Int64Value 1)] ++ []))
          = Some (err', line)
        ∧ error_leaves err = error_leaves err')
  ∧ [mkAttr "Val1" (StringValue "abc")] ≠ []
  ∧ AddTime_error (Goldjson := test_goldjson)
      (Time_Round0 (r_Time (empty_record "attrs" LevelError))) = None
  ∧ object_of (G := test_goldjson) ([mkAttr "a" (Int64Value 1)] ≫= attr_events)
    = Some [("a", JInt64 1)]
  ∧ object_of (G := test_goldjson) ([mkAttr "Val1" (StringValue "abc")] ≫= attr_events)
    = Some [("Val1", JString "abc")]
  ∧ [("Val1", JString "abc")] ≠ []
  ∧ object_of (G := test_goldjson) ([] ≫= attr_events) = Some []
  ∧ ∃ err line,
      Handle (G := test_goldjson) (R := test_runtime) base_heap base_handler Background
        (with_attrs (empty_record "attrs" LevelError)
           ([mkAttr "a" (Int64Value 1)]
            ++ mkAttr "Group" (GroupValue [mkAttr "Val1" (StringValue "abc")]) :: []))
      = Some (err, line)
      ∧ object_of (G := test_goldjson) line
        = Some (fixed_fields (G := test_goldjson) (R := test_runtime) base_handler Background
                  (empty_record "attrs" LevelError)
                ++ [("a", JInt64 1)] ++ [("Group", JObject [("Val1", JString "abc")])] ++ []).
Proof.
  split; [apply valid_base|]. split; [apply builders_base|]. split.
  - destruct (empty_group_omitted (G := test_goldjson) (R := test_runtime)
                base_heap base_handler [] Background (empty_record "attrs" LevelError)
                [mkAttr "a" (Int64Value 1)] [] "Group" [] valid_base builders_base)
      as (_ & err & line & HH & Hempty & _).
    destruct (Hempty eq_refl) as (_ & err' & HH' & Hleaves).
    by exists err, err', line.
  - repeat (split; [done|]).
    destruct (empty_group_omitted (G := test_goldjson) (R := test_runtime)
                base_heap base_handler [] Background (empty_record "attrs" LevelError)
                [mkAttr "a" (Int64Value 1)] [] "Group" [mkAttr "Val1" (StringValue "abc")]
                valid_base builders_base)
      as (_ & err & line & HH & _ & Hgroup).
    destruct (Hgroup ltac:(done)) as (_ & Hobj).
    exists err, line. split; [exact HH|].
    exact (Hobj [("a", JInt64 1)] [("Val1", JString "abc")] []
             eq_refl eq_refl eq_refl eq_refl ltac:(done) eq_refl).
Defined.

(** ** C10: a trace stored in a context is read back unchanged *)

(** Claim C10. The trace read from [t.Context(ctx)] is [t], field for
    field. A context on whose chain no trace was stored yields the zero
    [Trace], whose ID is empty, and [addTrace] then writes nothing. *)
Theorem trace_roundtrip (t : Trace) (ctx : Context) :
  traceFromContext (Trace_Context t ctx) = t
  ∧ (trace_stored ctx = false →
     traceFromContext ctx = zeroTrace
     ∧ ID (traceFromContext ctx) = ""
     ∧ ∀ h l r, addTrace h ctx l r = l).
Proof.
  split; [done|]. intros Hns.
  assert (traceFromContext ctx = zeroTrace) as Hz.
  { unfold traceFromContext. by rewrite trace_not_stored. }
  split; [done|]. split; [by rewrite Hz|].
  intros h l r. unfold addTrace. by rewrite Hz.
Qed.

Lemma trace_roundtrip_witness :
  trace_stored (WithValue Background (foreignKey "requestID") (foreignValue "42")) = false
  ∧ traceFromContext (WithValue Background (foreignKey "requestID") (foreignValue "42"))
    = zeroTrace.
Proof.
  split; [reflexivity|].
  apply (trace_roundtrip zeroTrace
           (WithValue Background (foreignKey "requestID") (foreignValue "42"))).
  reflexivity.
Defined.

(** * Further properties of the code *)

(** ** Chains of derivations *)

Lemma pipeline_events_app bs1 bs2 inner :
  pipeline_events (bs1 ++ bs2) inner = pipeline_events bs1 (pipeline_events bs2 inner).
Proof. unfold pipeline_events. by rewrite foldr_app. Qed.

Lemma derive_all_spec {G : Goldjson} ds :
  ∀ σ h bs,
    valid σ h → builders σ h bs →
    ∃ h' σ' bs',
      derive_all ds h σ = Some (h', σ')
      ∧ extends σ σ' ∧ valid σ' h' ∧ builders σ' h' (bs ++ bs')
      ∧ config h' = config h
      ∧ ∀ inner, pipeline_events bs' inner = nest_events ds inner.
Proof.
  induction ds as [|d ds IH]; intros σ h bs Hv Hbs.
  - exists h, σ, []. rewrite app_nil_r.
    split; [done|]. split; [apply extends_refl|]. by repeat (split; [done|]).
  - destruct (derive_spec d σ h bs Hv Hbs)
      as (h1 & σ1 & f & Hd & Hext & Hb1 & Hv1 & Hcfg & Hf).
    destruct (IH σ1 h1 (bs ++ [f]) Hv1 Hb1)
      as (h' & σ' & bs' & Hds & Hext' & Hv' & Hb' & Hcfg' & Hnest).
    exists h', σ', (f :: bs'). split; [|split; [|split; [|split; [|split]]]].
    + simpl. unfold mbind, Go_bind. by rewrite Hd.
    + by eapply extends_trans.
    + done.
    + by rewrite <-app_assoc in Hb'.
    + congruence.
    + intros inner. simpl. change (foldr _ inner bs') with (pipeline_events bs' inner).
      rewrite Hnest. destruct d as [as_|name].
      * by destruct Hf as (-> & _).
      * by rewrite Hf.
Qed.

Lemma object_of_static {G : Goldjson} (as_ : list Attr) fs :
  object_of [AddStaticFields (as_ ≫= attr_events)] = Some fs →
  as_ ≫= attr_events ≠ [] ∧ attrs_fields as_ = Some fs.
Proof.
  unfold object_of. intros H.
  destruct (as_ ≫= attr_events) as [|e es] eqn:E; [done|]. split; [done|].
  rewrite <-E in H.
  assert (forallb filled [AddStaticFields (as_ ≫= attr_events)] = true) as Hf.
  { change (forallb filled [AddStaticFields (as_ ≫= attr_events)])
      with (filled (AddStaticFields (as_ ≫= attr_events)) && true).
    rewrite filled_static; [done|by rewrite E|apply attrs_events_plain]. }
  rewrite Hf in H.
  assert (inline_line [AddStaticFields (as_ ≫= attr_events)] = as_ ≫= attr_events) as Hin.
  { unfold inline_line at 1. rewrite bind_cons, inline_AddStaticFields.
    change ([] ≫= inline) with (@nil Event).
    rewrite app_nil_r. apply inline_line_plain, attrs_events_plain. }
  rewrite Hin in H.
  rewrite <-(app_nil_r (as_ ≫= attr_events)), attrs_parse in H.
  by destruct (attrs_fields as_).
Qed.

Lemma nest_events_reads {G : Goldjson} ds inner fs0 :
  Forall plain inner → renders inner fs0 →
  ∀ fs, nest_fields ds fs0 = Some fs →
        ∃ evs, inline_line (nest_events ds inner) = evs ∧ Forall plain evs
               ∧ forallb filled (nest_events ds inner) = true
               ∧ renders evs fs.
Proof.
  intros Hplain Hr0. induction ds as [|d ds IH]; intros fs Hfs.
  - injection Hfs as <-. exists inner.
    split; [by apply inline_line_plain|]. split; [done|].
    split; [by apply plain_all_filled|done].
  - change (nest_fields (d :: ds) fs0)
      with (match nest_fields ds fs0 with
            | None => None
            | Some inner =>
                match d with
                | byWithAttrs as_ =>
                    match object_of [AddStaticFields (as_ ≫= attr_events)] with
                    | Some fs => Some (fs ++ inner)
                    | None => None
                    end
                | byWithGroup name =>
                    match inner with
                    | [] => None
                    | _ :: _ => Some [(name, JObject inner)]
                    end
                end
            end) in Hfs.
    destruct (nest_fields ds fs0) as [fs1|]; [|done].
    destruct (IH fs1 eq_refl) as (evs & Hevs & Hp & Hf & Hr).
    destruct d as [as_|name].
    + destruct (object_of [AddStaticFields (as_ ≫= attr_events)]) as [fsx|] eqn:Hx; [|done].
      injection Hfs as <-. apply object_of_static in Hx as [Hne Hx].
      exists ((as_ ≫= attr_events) ++ evs). split; [|split; [|split]].
      * change (nest_events (byWithAttrs as_ :: ds) inner)
          with ([AddStaticFields (as_ ≫= attr_events)] ++ nest_events ds inner).
        rewrite inline_line_app, Hevs. f_equal.
        unfold inline_line at 1. rewrite bind_cons, inline_AddStaticFields.
        change ([] ≫= inline) with (@nil Event).
        rewrite app_nil_r. apply inline_line_plain, attrs_events_plain.
      * apply Forall_app. split; [apply attrs_events_plain|done].
      * change (nest_events (byWithAttrs as_ :: ds) inner)
          with (AddStaticFields (as_ ≫= attr_events) :: nest_events ds inner).
        change (forallb filled (AddStaticFields (as_ ≫= attr_events) :: nest_events ds inner))
          with (filled (AddStaticFields (as_ ≫= attr_events))
                && forallb filled (nest_events ds inner)).
        rewrite Hf, filled_static; [done|done|apply attrs_events_plain].
      * apply renders_app; [by apply attrs_fields_renders|done].
    + destruct fs1 as [|f fs1]; [done|]. injection Hfs as <-.
      exists (StartRecord name :: evs ++ [EndRecord]). split; [|split; [|split]].
      * change (nest_events (byWithGroup name :: ds) inner)
          with ([StartRecord name] ++ nest_events ds inner ++ [EndRecord]).
        rewrite !inline_line_app, Hevs. done.
      * constructor; [done|]. apply Forall_app. split; [done|by repeat constructor].
      * change (nest_events (byWithGroup name :: ds) inner)
          with (StartRecord name :: nest_events ds inner ++ [EndRecord]).
        change (forallb filled (StartRecord name :: nest_events ds inner ++ [EndRecord]))
          with (forallb filled (nest_events ds inner ++ [EndRecord])).
        by rewrite forallb_app, Hf.
      * by apply renders_record.
Qed.

(** X1. For every chain of WithAttrs and WithGroup calls on a handler made by
    NewHandler, whatever the writer, the configuration, the context and the
    record, Handle returns and writes one line: the fixed fields, then the
    chain's static fields and groups nested in the order of the calls around the
    record's own attributes, every opened group closed. Where the encoder
    accepts the timestamp, the record's attributes and the attributes of every
    WithAttrs read back, every WithAttrs wrote something and no group is left
    empty, the line reads back as the fixed members followed by the chain's
    members nested in the same way. *)
Theorem derived_handler_line {G : Goldjson} {R : Runtime} ds σ w cfg ctx r :
  ∃ h σ' err,
    (h ← NewHandler w cfg; derive_all ds h) σ = Some (h, σ')
    ∧ config h = cfg
    ∧ Handle σ' h ctx r
      = Some (err, fixed_events h ctx r ++ nest_events ds (r_Attrs r ≫= attr_events))
    ∧ ∀ inner fs,
        AddTime_error (Time_Round0 (r_Time r)) = None →
        object_of (r_Attrs r ≫= attr_events) = Some inner →
        nest_fields ds inner = Some fs →
        object_of (fixed_events h ctx r ++ nest_events ds (r_Attrs r ≫= attr_events))
        = Some (fixed_fields h ctx r ++ fs).
Proof.
  destruct (NewHandler w cfg σ) as [[h0 σ0]|] eqn:H0; [|by rewrite NewHandler_spec in H0].
  destruct (valid_NewHandler _ _ _ _ _ H0) as (Hv0 & _ & Hb0).
  destruct (derive_all_spec ds σ0 h0 [] Hv0 Hb0)
    as (h & σ' & bs & Hds & _ & Hv & Hb & Hcfg & Hnest).
  simpl in Hb. destruct (valid_inv σ' h Hv) as (bs' & e & Hb' & Hok & He).
  rewrite (builders_inj σ' h bs' bs Hb' Hb) in Hok.
  exists h, σ'. eexists. split; [|split; [|split]].
  - unfold mbind, Go_bind. by rewrite H0.
  - rewrite Hcfg. rewrite NewHandler_spec in H0. by injection H0 as <- _.
  - rewrite (Handle_spec σ' h bs e) by done. unfold Handle_events. by rewrite Hnest.
  - intros inner fs Ht Hinner Hfs. rewrite object_of_attrs in Hinner.
    destruct (nest_events_reads ds (r_Attrs r ≫= attr_events) inner
                (attrs_events_plain _) (attrs_fields_renders _ _ Hinner) fs Hfs)
      as (evs & Hevs & _ & Hf & Hr).
    apply object_of_renders.
    + rewrite forallb_app, Hf.
      by rewrite (plain_all_filled (fixed_events _ _ _)) by apply fixed_events_plain.
    + rewrite inline_line_app, Hevs.
      rewrite (inline_line_plain (fixed_events _ _ _)) by apply fixed_events_plain.
      apply renders_app; [by apply fixed_renders|done].
Qed.

Lemma derived_handler_line_witness :
  AddTime_error (Goldjson := test_goldjson)
    (Time_Round0 (r_Time (empty_record "nested" LevelError))) = None
  ∧ object_of (G := test_goldjson) ([mkAttr "Z" (BoolValue true)] ≫= attr_events)
    = Some [("Z", JBool true)]
  ∧ nest_fields (G := test_goldjson)
      [byWithAttrs [mkAttr "X" (Int64Value 1)]; byWithGroup "G";
       byWithAttrs [mkAttr "Y" (StringValue "y")]]
      [("Z", JBool true)]
    = Some [("X", JInt64 1); ("G", JObject [("Y", JString "y"); ("Z", JBool true)])]
  ∧ ∃ line,
      object_of (G := test_goldjson) line
      = Some (fixed_fields (G := test_goldjson) (R := test_runtime) base_handler Background
                (empty_record "nested" LevelError)
              ++ [("X", JInt64 1); ("G", JObject [("Y", JString "y"); ("Z", JBool true)])]).
Proof.
  destruct (derived_handler_line (G := test_goldjson) (R := test_runtime)
              [byWithAttrs [mkAttr "X" (Int64Value 1)]; byWithGroup "G";
               byWithAttrs [mkAttr "Y" (StringValue "y")]]
              emptyHeap IgnoreWriter {| ProjectID := "proj"; Level := None |} Background
              (with_attrs (empty_record "nested" LevelError) [mkAttr "Z" (BoolValue true)]))
    as (h & σ' & err & _ & _ & _ & Hobj).
  repeat (split; [done|]).
  eexists. exact (Hobj _ _ eq_refl eq_refl eq_refl).
Defined.

(** X2. Deriving handlers from one handler by any chain of WithAttrs and WithGroup
    calls changes no other existing handler: its encoder, its attribute builders
    and what its Handle returns and writes stay the same. *)
Theorem derivations_do_not_disturb {G : Goldjson} ds σ A C :
  valid σ A → valid σ C →
  ∃ B σ',
    derive_all ds A σ = Some (B, σ')
    ∧ valid σ' B ∧ valid σ' C
    ∧ encoders σ' !! encoder C = encoders σ !! encoder C
    ∧ slice_elems σ' (attrBuilders C) = slice_elems σ (attrBuilders C)
    ∧ ∀ (R : Runtime) ctx r, Handle σ' C ctx r = Handle σ C ctx r.
Proof.
  intros HA HC. destruct (valid_inv σ A HA) as (bs & _ & Hbs & _ & _).
  destruct (derive_all_spec ds σ A bs HA Hbs) as (B & σ' & bs' & Hd & Hext & HB & _).
  exists B, σ'. split; [done|]. split; [done|]. split; [by eapply valid_extends|].
  destruct (valid_inv σ C HC) as (bsC & eC & [HelC _] & _ & HeC).
  split; [|split].
  - rewrite HeC. destruct Hext as [Hp _ _]. by eapply prefix_lookup_Some.
  - rewrite HelC. by eapply slice_elems_extends.
  - intros R ctx r. by apply Handle_extends.
Qed.

Lemma derivations_do_not_disturb_witness :
  valid two_steps_heap two_steps_handler
  ∧ valid two_steps_heap
      {| encoder := 0; config := {| ProjectID := "proj"; Level := None |};
         attrBuilders := {| s_array := Some 0; s_len := 1; s_cap := 1 |} |}
  ∧ ∃ B σ',
      derive_all (G := test_goldjson)
        [byWithGroup "H"; byWithAttrs [mkAttr "Y" (Int64Value 2)]]
        two_steps_handler two_steps_heap = Some (B, σ')
      ∧ ∀ (R : Runtime) ctx r,
          Handle (G := test_goldjson) σ'
            {| encoder := 0; config := {| ProjectID := "proj"; Level := None |};
               attrBuilders := {| s_array := Some 0; s_len := 1; s_cap := 1 |} |} ctx r
          = Handle (G := test_goldjson) two_steps_heap
              {| encoder := 0; config := {| ProjectID := "proj"; Level := None |};
                 attrBuilders := {| s_array := Some 0; s_len := 1; s_cap := 1 |} |} ctx r.
Proof.
  assert (valid two_steps_heap
            {| encoder := 0; config := {| ProjectID := "proj"; Level := None |};
               attrBuilders := {| s_array := Some 0; s_len := 1; s_cap := 1 |} |}) as HC.
  { split; [simpl; lia|]. exists [staticBuilder [AddInt64 "X" 1] 0].
    split; [by split|]. repeat constructor. }
  split; [apply valid_two_steps|]. split; [exact HC|].
  destruct (derivations_do_not_disturb (G := test_goldjson)
              [byWithGroup "H"; byWithAttrs [mkAttr "Y" (Int64Value 2)]]
              two_steps_heap two_steps_handler _ valid_two_steps HC)
    as (B & σ' & Hd & _ & _ & _ & _ & HH).
  by exists B, σ'.
Defined.


(** ** The level threshold *)

(** X3. Enabled reports a level exactly when it is at least the configured level, or
    at least INFO when the configuration has no level; so a level above an
    enabled level is enabled too. *)
Theorem Enabled_threshold h ctx l :
  (∀ level, Level (config h) = Some level → (Enabled h ctx l = true ↔ (level ≤ l)%Z))
  ∧ (Level (config h) = None → (Enabled h ctx l = true ↔ (LevelInfo ≤ l)%Z))
  ∧ (∀ l', (l ≤ l')%Z → Enabled h ctx l = true → Enabled h ctx l' = true).
Proof.
  unfold Enabled. split; [|split].
  - intros level ->. rewrite Z.geb_le. done.
  - intros ->. rewrite Z.geb_le. done.
  - intros l' Hle. rewrite !Z.geb_le. lia.
Qed.

Lemma Enabled_threshold_witness :
  Level (config base_handler) = None
  ∧ (LevelInfo ≤ LevelWarn)%Z
  ∧ Enabled base_handler Background LevelInfo = true
  ∧ Enabled base_handler Background LevelWarn = true
  ∧ Enabled base_handler Background LevelDebug = false
  ∧ Enabled (set_config base_handler {| ProjectID := ""; Level := Some LevelError |})
      Background LevelWarn = false.
Proof.
  split; [reflexivity|]. split; [discriminate|].
  destruct (Enabled_threshold base_handler Background LevelInfo) as (_ & Hdefault & Hmono).
  destruct (Enabled_threshold base_handler Background LevelDebug) as (_ & Hdebug & _).
  destruct (Enabled_threshold
              (set_config base_handler {| ProjectID := ""; Level := Some LevelError |})
              Background LevelWarn) as (Hlevel & _ & _).
  assert (Enabled base_handler Background LevelInfo = true) as Hinfo
    by (apply Hdefault; [reflexivity|discriminate]).
  split; [exact Hinfo|]. split; [apply (Hmono LevelWarn); [discriminate|exact Hinfo]|].
  split.
  - destruct (Hdebug eq_refl) as [Hd _].
    destruct (Enabled base_handler Background LevelDebug); [|reflexivity].
    exfalso. apply (Hd eq_refl). reflexivity.
  - destruct (Hlevel LevelError eq_refl) as [Hl _].
    destruct (Enabled _ Background LevelWarn); [|reflexivity].
    exfalso. apply (Hl eq_refl). reflexivity.
Defined.

(** X4. With no level configured, Enabled reports exactly the levels that
    addSeverity writes as something other than DEBUG. *)
Theorem default_gate_is_above_DEBUG h ctx l :
  Level (config h) = None →
  (Enabled h ctx l = true ↔ severity l ≠ "DEBUG").
Proof.
  intros Hnone. unfold Enabled, severity. rewrite Hnone.
  unfold LevelError, LevelWarn, LevelInfo.
  destruct (l >=? 0)%Z eqn:E0.
  - split; [intros _|done]. repeat case_match; done.
  - split; [done|]. intros H. exfalso. apply H.
    repeat case_match; try done; lia.
Qed.

Lemma default_gate_is_above_DEBUG_witness :
  Level (config base_handler) = None
  ∧ (Enabled base_handler Background 3 = true ↔ severity 3 ≠ "DEBUG").
Proof.
  split; [reflexivity|].
  apply (default_gate_is_above_DEBUG base_handler Background 3). reflexivity.
Defined.

(** X5. Handle does not consult the configured level: with any other level in the
    configuration it returns the same error and writes the same line, also for a
    record below the threshold. *)
Theorem Handle_is_not_gated {G : Goldjson} {R : Runtime} σ h ctx r level :
  valid σ h →
  ∃ err line,
    Handle σ h ctx r = Some (err, line)
    ∧ Handle σ (set_config h {| ProjectID := ProjectID (config h); Level := level |}) ctx r
      = Some (err, line).
Proof.
  intros Hv. destruct (valid_inv σ h Hv) as (bs & e & Hbs & Hok & He).
  eexists _, _. split; [by apply (Handle_spec σ h bs e)|].
  by rewrite (Handle_spec σ _ bs e).
Qed.

Lemma Handle_is_not_gated_witness :
  valid base_heap base_handler
  ∧ Enabled (set_config base_handler {| ProjectID := "proj"; Level := Some LevelError |})
      Background LevelDebug = false
  ∧ ∃ err line,
      Handle (G := test_goldjson) (R := test_runtime) base_heap base_handler Background
        (empty_record "quiet" LevelDebug) = Some (err, line)
      ∧ Handle (G := test_goldjson) (R := test_runtime) base_heap
          (set_config base_handler {| ProjectID := "proj"; Level := Some LevelError |})
          Background (empty_record "quiet" LevelDebug) = Some (err, line).
Proof.
  split; [apply valid_base|]. split; [reflexivity|].
  apply (Handle_is_not_gated (G := test_goldjson) (R := test_runtime)
           base_heap base_handler Background (empty_record "quiet" LevelDebug)
           (Some LevelError) valid_base).
Defined.

(** X6. A handler derived by any chain of WithAttrs and WithGroup calls has the
    configuration of the handler it came from, and Enabled answers the same for
    every level. *)
Theorem derivations_keep_Enabled {G : Goldjson} ds σ h h' σ' :
  valid σ h → derive_all ds h σ = Some (h', σ') →
  config h' = config h ∧ ∀ ctx l, Enabled h' ctx l = Enabled h ctx l.
Proof.
  intros Hv Hd. destruct (valid_inv σ h Hv) as (bs & _ & Hbs & _ & _).
  destruct (derive_all_spec ds σ h bs Hv Hbs) as (h2 & σ2 & bs' & Hd2 & _ & _ & _ & Hcfg & _).
  rewrite Hd in Hd2. injection Hd2 as <- <-.
  split; [done|]. intros ctx l. unfold Enabled. by rewrite Hcfg.
Qed.

Lemma derivations_keep_Enabled_witness :
  valid two_steps_heap two_steps_handler
  ∧ ∃ h' σ',
      derive_all (G := test_goldjson) [byWithGroup "H"] two_steps_handler two_steps_heap
      = Some (h', σ')
      ∧ ∀ ctx l, Enabled h' ctx l = Enabled two_steps_handler ctx l.
Proof.
  split; [apply valid_two_steps|]. eexists _, _. split; [vm_compute; reflexivity|].
  apply (derivations_keep_Enabled (G := test_goldjson) [byWithGroup "H"]
           two_steps_heap two_steps_handler _ _ valid_two_steps eq_refl).
Defined.

(** ** Attribute kinds *)

Lemma scalar_only_failures {G : Goldjson} a : scalar_only a = true → attr_failures a = [].
Proof.
  induction a as [key attrs IH|key v Hv] using Attr_nested_ind.
  - change (scalar_only (mkAttr key (GroupValue attrs))) with (forallb scalar_only attrs).
    change (attr_failures (mkAttr key (GroupValue attrs))) with (attrs ≫= attr_failures).
    induction IH as [|a attrs Ha _ IH]; [done|].
    rewrite bind_cons. simpl. intros [H1 H2]%andb_prop. by rewrite (Ha H1), (IH H2).
  - destruct v; try done. by destruct (Hv attrs).
Qed.

(** X7. addAttr returns no error for an attribute of kind string, int64, uint64,
    float64, bool or duration, or a group of such attributes at any depth,
    whatever the encoder. *)
Theorem scalar_attributes_never_fail {G : Goldjson} a l :
  scalar_only a = true →
  (addAttr l a).1 = None ∧ (addAttr l a).2 = write l (attr_events a).
Proof.
  intros Hs. rewrite addAttr_spec. simpl. split; [|done].
  apply attr_error_nil. rewrite (scalar_only_failures a Hs). constructor.
Qed.

Lemma scalar_attributes_never_fail_witness :
  scalar_only (mkAttr "Group" (GroupValue [mkAttr "Val1" (StringValue "abc");
                                           mkAttr "Val2" (DurationValue 123)])) = true
  ∧ (addAttr (G := rejecting_goldjson) (mkLineWriter IgnoreWriter [])
       (mkAttr "Group" (GroupValue [mkAttr "Val1" (StringValue "abc");
                                    mkAttr "Val2" (DurationValue 123)]))).1 = None.
Proof.
  split; [reflexivity|].
  apply (scalar_attributes_never_fail (G := rejecting_goldjson)
           (mkAttr "Group" (GroupValue [mkAttr "Val1" (StringValue "abc");
                                        mkAttr "Val2" (DurationValue 123)]))
           (mkLineWriter IgnoreWriter [])).
  reflexivity.
Defined.

(** X8. An attribute of a kind outside the switch of addAttr writes nothing: the
    line is the one the record gives without that attribute, the other
    attributes are still written, and Handle returns an error that holds the bad
    kind message. *)
Theorem bad_kind_is_reported_not_written {G : Goldjson} {R : Runtime}
    σ h ctx r before after key kind :
  valid σ h →
  ∃ err err' line,
    Handle σ h ctx (with_attrs r (before ++ mkAttr key (BadValue kind) :: after))
    = Some (err, line)
    ∧ Handle σ h ctx (with_attrs r (before ++ after)) = Some (err', line)
    ∧ err ≠ None
    ∧ "bad kind: <unknown slog.Kind>" ∈ error_leaves err.
Proof.
  intros Hv. destruct (valid_inv σ h Hv) as (bs & e & Hbs & Hok & He).
  assert (Handle_events h bs ctx
            (with_attrs r (before ++ mkAttr key (BadValue kind) :: after))
          = Handle_events h bs ctx (with_attrs r (before ++ after))) as Hline.
  { unfold Handle_events, fixed_events. simpl. by rewrite !bind_app, bind_cons. }
  assert ("bad kind: <unknown slog.Kind>"
          ∈ error_leaves
              (errors_Join
                 [pipeline_error σ bs
                    (attrs_error (before ++ mkAttr key (BadValue kind) :: after));
                  enc_w e (Handle_events h bs ctx (with_attrs r (before ++ after)))]))
    as Hin.
  { rewrite Handle_error_leaves, !bind_app, bind_cons.
    apply elem_of_app. right. apply elem_of_app. left.
    apply elem_of_app. right. apply elem_of_app. left.
    simpl. by left. }
  eexists _, _, _. split; [|split; [|split]].
  - rewrite (Handle_spec σ h bs e) by done. by rewrite Hline.
  - by rewrite (Handle_spec σ h bs e) by done.
  - intros Hnil. simpl in Hnil. rewrite Hnil in Hin. by apply elem_of_nil in Hin.
  - exact Hin.
Qed.

Lemma bad_kind_is_reported_not_written_witness :
  valid base_heap base_handler
  ∧ ∃ err err' line,
      Handle (G := test_goldjson) (R := test_runtime) base_heap base_handler Background
        (with_attrs (empty_record "attrs" LevelError)
           ([mkAttr "Correct" (StringValue "correct")]
            ++ mkAttr "Erroring" (BadValue 3735928559) :: []))
      = Some (err, line)
      ∧ Handle (G := test_goldjson) (R := test_runtime) base_heap base_handler Background
          (with_attrs (empty_record "attrs" LevelError)
             ([mkAttr "Correct" (StringValue "correct")] ++ []))
        = Some (err', line)
      ∧ err ≠ None
      ∧ "bad kind: <unknown slog.Kind>" ∈ error_leaves err.
Proof.
  split; [apply valid_base|].
  apply (bad_kind_is_reported_not_written (G := test_goldjson) (R := test_runtime)
           base_heap base_handler Background (empty_record "attrs" LevelError)
           [mkAttr "Correct" (StringValue "correct")] [] "Erroring" 3735928559 valid_base).
Defined.

(** ** The timestamp and the writer *)

(** X9. addTimestamp writes the record's time without its monotonic reading, so two
    records that differ only there give the same line, and it drops the error of
    AddTime: Handle returns nil where addAttr returns the encoder's error for
    the same time as an attribute. *)
Theorem timestamp_is_rounded_and_its_error_dropped {G : Goldjson} {R : Runtime}
    σ h e ctx wall mono mono' msg level pc :
  valid σ h → builders σ h [] → encoders σ !! encoder h = Some e →
  (∀ line, enc_w e line = None) →
  let r := {| r_Time := {| unixNano := wall; monotonic := mono |}; r_Message := msg;
              r_Level := level; r_PC := pc; r_Attrs := [] |} in
  let r' := {| r_Time := {| unixNano := wall; monotonic := mono' |}; r_Message := msg;
               r_Level := level; r_PC := pc; r_Attrs := [] |} in
  ∃ line,
    Handle σ h ctx r = Some (None, line)
    ∧ Handle σ h ctx r' = Some (None, line)
    ∧ line !! 1 = Some (AddTime fieldTimestamp {| unixNano := wall; monotonic := None |})
    ∧ ∀ key l,
        (addAttr l (mkAttr key (TimeValue {| unixNano := wall; monotonic := None |}))).1
        = AddTime_error {| unixNano := wall; monotonic := None |}.
Proof.
  intros Hv Hbs He Hw r r'.
  eexists. split; [|split; [|split]].
  - rewrite (Handle_spec σ h [] e) by done. simpl. rewrite Hw. reflexivity.
  - rewrite (Handle_spec σ h [] e) by done. simpl. rewrite Hw. reflexivity.
  - reflexivity.
  - done.
Qed.

Lemma timestamp_is_rounded_and_its_error_dropped_witness :
  valid base_heap base_handler
  ∧ builders base_heap base_handler []
  ∧ encoders base_heap !! encoder base_handler
    = Some {| enc_w := IgnoreWriter; enc_keys := prepared_keys |}
  ∧ (∀ line, IgnoreWriter line = None)
  ∧ AddTime_error (Goldjson := rejecting_goldjson) {| unixNano := 7; monotonic := None |}
    ≠ None
  ∧ ∃ line,
      Handle (G := rejecting_goldjson) (R := test_runtime) base_heap base_handler
        Background
        {| r_Time := {| unixNano := 7; monotonic := Some 42%Z |}; r_Message := "m";
           r_Level := LevelInfo; r_PC := 0; r_Attrs := [] |}
      = Some (None, line).
Proof.
  split; [apply valid_base|]. split; [apply builders_base|]. split; [reflexivity|].
  split; [reflexivity|]. split; [discriminate|].
  destruct (timestamp_is_rounded_and_its_error_dropped
              (G := rejecting_goldjson) (R := test_runtime)
              base_heap base_handler _ Background 7%Z (Some 42%Z) None "m" LevelInfo 0%Z
              valid_base builders_base eq_refl (λ _, eq_refl))
    as (line & H1 & _).
  by exists line.
Defined.

(** X10. When the writer fails at the end of the line, Handle has still handed it the
    whole line and returns a non-nil error whose messages are those of the
    steps' captured errors and of the failing attribute calls, in that order,
    followed by the writer's; when nothing else failed they are the writer's
    alone. *)
Theorem writer_error_is_returned {G : Goldjson} {R : Runtime} σ h bs e ctx r x :
  valid σ h → builders σ h bs → encoders σ !! encoder h = Some e →
  enc_w e (Handle_events h bs ctx r) = Some x →
  ∃ err,
    Handle σ h ctx r = Some (err, Handle_events h bs ctx r)
    ∧ err ≠ None
    ∧ error_leaves err
      = ((builder_errors σ bs ++ (r_Attrs r ≫= attr_failures)) ≫= error_leaves)
        ++ err_leaves x
    ∧ (Forall (eq None) (builder_errors σ bs ++ (r_Attrs r ≫= attr_failures)) →
       error_leaves err = err_leaves x).
Proof.
  intros Hv Hbs He Hw. destruct (valid_inv σ h Hv) as (bs' & _ & Hbs' & Hok & _).
  rewrite (builders_inj σ h bs' bs Hbs' Hbs) in Hok.
  assert (error_leaves
            (errors_Join [pipeline_error σ bs (attrs_error (r_Attrs r)); Some x])
          = ((builder_errors σ bs ++ (r_Attrs r ≫= attr_failures)) ≫= error_leaves)
            ++ err_leaves x) as Hleaves.
  { rewrite Handle_error_leaves, app_assoc, bind_app. simpl. by rewrite app_nil_r. }
  eexists. split; [by apply (Handle_spec σ h bs e)|]. rewrite Hw.
  split; [|split].
  - intros [_ H]%errors_Join2_nil. done.
  - exact Hleaves.
  - intros Hnil. etrans; [exact Hleaves|].
    assert ((builder_errors σ bs ++ (r_Attrs r ≫= attr_failures)) ≫= error_leaves = [])
      as ->; [|done].
    induction Hnil as [|? ? <- _ IH]; [done|]. by rewrite bind_cons, IH.
Qed.

Lemma writer_error_is_returned_witness :
  let σ := {| encoders := [{| enc_w := ErrorWriter; enc_keys := prepared_keys |}];
              arrays := []; errs := [] |} in
  valid σ base_handler
  ∧ builders σ base_handler []
  ∧ encoders σ !! encoder base_handler
    = Some {| enc_w := ErrorWriter; enc_keys := prepared_keys |}
  ∧ ErrorWriter (Handle_events (R := test_runtime) base_handler [] Background
                   (empty_record "write error" LevelError))
    = Some (errorString "error writing")
  ∧ ∃ err line,
      Handle (G := test_goldjson) (R := test_runtime) σ base_handler Background
        (empty_record "write error" LevelError) = Some (err, line)
      ∧ error_leaves err = ["error writing"].
Proof.
  intros σ.
  assert (valid σ base_handler) as Hv.
  { split; [simpl; lia|]. exists []. by repeat split. }
  assert (builders σ base_handler []) as Hb by (by split).
  split; [exact Hv|]. split; [exact Hb|]. split; [reflexivity|]. split; [reflexivity|].
  destruct (writer_error_is_returned (G := test_goldjson) (R := test_runtime)
              σ base_handler [] _ Background (empty_record "write error" LevelError)
              (errorString "error writing") Hv Hb eq_refl eq_refl)
    as (err & HH & _ & _ & Hleaves).
  eexists err, _. split; [exact HH|]. apply Hleaves. constructor.
Defined.

(** ** cloneSlice and cloneAppend *)

(** X11. cloneAppend returns a slice on a new array that holds the elements of the
    slice followed by the values, with no spare capacity; every slice that
    existed before, the argument included, still reads the same. *)
Theorem cloneAppend_copies σ s bs values :
  slice_elems σ s = Some bs → length bs = s_len s →
  ∃ s' σ',
    cloneAppend s values σ = Some (s', σ')
    ∧ s_array s' = Some (length (arrays σ))
    ∧ s_len s' = s_len s + length values
    ∧ s_cap s' = s_len s'
    ∧ slice_elems σ' s' = Some (bs ++ values)
    ∧ extends σ σ'
    ∧ ∀ t elems, slice_elems σ t = Some elems → slice_elems σ' t = Some elems.
Proof.
  intros Hbs Hlen. eexists _, _. split; [by apply cloneAppend_spec|].
  set (σ' := mkHeap _ _ _).
  assert (extends σ σ') as Hext by (split; simpl; by try apply prefix_app_r).
  split; [done|]. split; [done|]. split; [done|]. split; [|split; [done|]].
  - apply slice_elems_new. rewrite length_app. simpl. lia.
  - intros t elems Ht. by eapply slice_elems_extends.
Qed.

Lemma cloneAppend_copies_witness :
  let σ := {| encoders := []; arrays := [[groupBuilder "a"; nilFunc]]; errs := [] |} in
  let s := {| s_array := Some 0; s_len := 1; s_cap := 2 |} in
  let sibling := {| s_array := Some 0; s_len := 2; s_cap := 2 |} in
  slice_elems σ s = Some [groupBuilder "a"]
  ∧ length [groupBuilder "a"] = s_len s
  ∧ ∃ s' σ',
      cloneAppend s [groupBuilder "b"] σ = Some (s', σ')
      ∧ slice_elems σ' s' = Some [groupBuilder "a"; groupBuilder "b"]
      ∧ slice_elems σ' sibling = Some [groupBuilder "a"; nilFunc].
Proof.
  intros σ s sibling. split; [reflexivity|]. split; [reflexivity|].
  destruct (cloneAppend_copies σ s [groupBuilder "a"] [groupBuilder "b"] eq_refl eq_refl)
    as (s' & σ' & Hc & _ & _ & _ & Hs' & _ & Hframe).
  exists s', σ'. split; [exact Hc|]. split; [exact Hs'|].
  apply Hframe. reflexivity.
Defined.

(** X12. cloneSlice returns a copy of the slice with the same length and extraCap
    more capacity, so appending up to extraCap values to the copy stays in the
    copy's array, allocates nothing and leaves the original slice unchanged. *)
Theorem cloneSlice_leaves_room σ s bs extraCap values :
  slice_elems σ s = Some bs → length bs = s_len s → length values ≤ extraCap →
  ∃ c σ1 c' σ2,
    cloneSlice s extraCap σ = Some (c, σ1)
    ∧ s_len c = s_len s ∧ s_cap c = s_len s + extraCap
    ∧ slice_elems σ1 c = Some bs
    ∧ append c values σ1 = Some (c', σ2)
    ∧ s_array c' = s_array c
    ∧ length (arrays σ2) = length (arrays σ1)
    ∧ slice_elems σ2 c' = Some (bs ++ values)
    ∧ slice_elems σ2 s = Some bs.
Proof.
  intros Hbs Hlen Hfit.
  assert (cloneSlice s extraCap σ
          = Some ({| s_array := Some (length (arrays σ)); s_len := s_len s;
                     s_cap := s_len s + extraCap |},
                  {| encoders := encoders σ;
                     arrays := arrays σ ++ [bs ++ replicate extraCap nilFunc];
                     errs := errs σ |})) as Hc.
  { unfold cloneSlice, mbind, Go_bind. rewrite Hbs. simpl.
    unfold make, mbind, Go_bind, mret, Go_ret, new_array. simpl.
    erewrite append_fits; [|apply lookup_snoc|simpl; lia]. simpl.
    rewrite insert_snoc, Hlen. do 4 f_equal.
    rewrite <-Hlen, drop_replicate. by replace (length bs + extraCap - length bs) with extraCap by lia. }
  pose proof (append_fits
                {| encoders := encoders σ;
                   arrays := arrays σ ++ [bs ++ replicate extraCap nilFunc];
                   errs := errs σ |}
                (length (arrays σ)) (s_len s) (s_len s + extraCap)
                (bs ++ replicate extraCap nilFunc) values
                (lookup_snoc _ _) ltac:(lia)) as Ha.
  simpl in Ha. rewrite insert_snoc in Ha.
  eexists _, _, _, _. split; [exact Hc|]. split; [done|]. split; [done|].
  split; [|split; [exact Ha|split; [done|split; [|split]]]].
  - unfold slice_elems. simpl. rewrite lookup_snoc. simpl.
    by rewrite <-Hlen, take_app_length.
  - simpl. by rewrite !length_app.
  - unfold slice_elems. simpl. rewrite lookup_snoc. simpl.
    rewrite <-Hlen, take_app_length.
    rewrite (app_assoc bs values), take_app_le by (rewrite length_app; lia).
    by rewrite take_ge by (rewrite length_app; lia).
  - apply (slice_elems_extends σ); [done|]. split; simpl; by try apply prefix_app_r.
Qed.

Lemma cloneSlice_leaves_room_witness :
  let σ := {| encoders := []; arrays := [[groupBuilder "a"]]; errs := [] |} in
  let s := {| s_array := Some 0; s_len := 1; s_cap := 1 |} in
  slice_elems σ s = Some [groupBuilder "a"]
  ∧ length [groupBuilder "a"] = s_len s
  ∧ length [groupBuilder "b"] ≤ 2
  ∧ ∃ c σ1 c' σ2,
      cloneSlice s 2 σ = Some (c, σ1)
      ∧ append c [groupBuilder "b"] σ1 = Some (c', σ2)
      ∧ s_array c' = s_array c
      ∧ slice_elems σ2 s = Some [groupBuilder "a"].
Proof.
  intros σ s. split; [reflexivity|]. split; [reflexivity|]. split; [simpl; lia|].
  destruct (cloneSlice_leaves_room σ s [groupBuilder "a"] 2 [groupBuilder "b"]
              eq_refl eq_refl ltac:(simpl; lia))
    as (c & σ1 & c' & σ2 & Hc & _ & _ & _ & Ha & Hsame & _ & _ & Hs).
  by exists c, σ1, c', σ2.
Defined.

(** ** Encoders: NewHandler, WithAttrs, WithGroup *)

(** X13. WithAttrs keeps the encoder of the handler and creates none; WithGroup gives
    the derived handler a new encoder, a clone with the group's name as one more
    prepared key and the same writer, and leaves the encoder of the original
    handler as it was. *)
Theorem encoder_shared_or_cloned {G : Goldjson} σ h e as_ name :
  valid σ h → encoders σ !! encoder h = Some e →
  (∃ h' σ',
      WithAttrs h as_ σ = Some (h', σ')
      ∧ encoder h' = encoder h
      ∧ encoders σ' = encoders σ)
  ∧ (∃ h' σ',
      WithGroup h name σ = Some (h', σ')
      ∧ encoder h' = length (encoders σ)
      ∧ encoders σ' !! encoder h'
        = Some {| enc_w := enc_w e; enc_keys := enc_keys e ++ [name] |}
      ∧ encoders σ' !! encoder h = Some e
      ∧ NewLine σ' (encoder h') = NewLine σ (encoder h)).
Proof.
  intros Hv He. destruct (valid_inv σ h Hv) as (bs & _ & Hbs & _ & _). split.
  - eexists _, _. split; [by apply (WithAttrs_spec σ h bs)|]. done.
  - eexists _, _. split; [by apply (WithGroup_spec σ h bs e)|]. simpl.
    split; [done|]. split; [apply lookup_snoc|]. split.
    + apply lookup_app_l_Some. done.
    + unfold NewLine. simpl. rewrite lookup_snoc, He. done.
Qed.

Lemma encoder_shared_or_cloned_witness :
  valid base_heap base_handler
  ∧ encoders base_heap !! encoder base_handler
    = Some {| enc_w := IgnoreWriter; enc_keys := prepared_keys |}
  ∧ ∃ h' σ',
      WithGroup base_handler "G" base_heap = Some (h', σ')
      ∧ encoders σ' !! encoder h'
        = Some {| enc_w := IgnoreWriter; enc_keys := prepared_keys ++ ["G"] |}
      ∧ encoders σ' !! encoder base_handler
        = Some {| enc_w := IgnoreWriter; enc_keys := prepared_keys |}.
Proof.
  split; [apply valid_base|]. split; [reflexivity|].
  destruct (encoder_shared_or_cloned (G := test_goldjson) base_heap base_handler _
              [] "G" valid_base eq_refl)
    as (_ & h' & σ' & Hg & _ & Hclone & Hparent & _).
  by exists h', σ'.
Defined.

(** X14. NewHandler returns a handler with the given configuration, no attribute
    builders and a new encoder on the given writer, and every key that the fixed
    fields of Handle write (message, timestamp, severity, source location and
    its members, trace, span, sampled, labels) is among the keys it prepared. *)
Theorem NewHandler_prepares_fixed_keys {R : Runtime} w cfg σ :
  ∃ h σ',
    NewHandler w cfg σ = Some (h, σ')
    ∧ config h = cfg
    ∧ builders σ' h []
    ∧ valid σ' h
    ∧ extends σ σ'
    ∧ encoders σ' !! encoder h = Some {| enc_w := w; enc_keys := prepared_keys |}
    ∧ ∀ ctx r key,
        Some key ∈ event_key <$> (head_events r ++ trace_events h ctx
                                   ++ take 1 (labels_events ctx)) →
        key ∈ prepared_keys.
Proof.
  eexists _, _. split; [apply NewHandler_spec|].
  destruct (valid_NewHandler w cfg σ _ _ (NewHandler_spec w cfg σ)) as (Hv & Hext & Hb).
  split; [done|]. split; [done|]. split; [done|]. split; [done|].
  split; [simpl; apply lookup_snoc|].
  intros ctx r key. rewrite !fmap_app, !elem_of_app. intros [H|[H|H]].
  - unfold head_events in H. simpl in H.
    repeat (apply elem_of_cons in H as [H|H];
            [try discriminate; injection H as ->; unfold prepared_keys; set_solver|]).
    by apply elem_of_nil in H.
  - unfold trace_events in H. case_decide; [by apply elem_of_nil in H|].
    case_decide; simpl in H;
      repeat (apply elem_of_cons in H as [H|H];
              [injection H as ->; unfold prepared_keys; set_solver|]);
      by apply elem_of_nil in H.
  - unfold labels_events in H. destruct (labels_of _); simpl in H.
    + by apply elem_of_nil in H.
    + apply elem_of_cons in H as [H|H]; [|by apply elem_of_nil in H].
      injection H as ->. unfold prepared_keys. set_solver.
Qed.

Lemma NewHandler_prepares_fixed_keys_witness :
  Some fieldTraceID
  ∈ event_key <$> (head_events (R := test_runtime) (empty_record "hello" LevelError)
                   ++ trace_events base_handler
                        (Trace_Context {| ID := "abc"; SpanID := ""; Sampled := false |}
                           Background)
                   ++ take 1 (labels_events
                                (Trace_Context {| ID := "abc"; SpanID := ""; Sampled := false |}
                                   Background)))
  ∧ fieldTraceID ∈ prepared_keys.
Proof.
  assert (Some fieldTraceID
          ∈ event_key <$> (head_events (R := test_runtime) (empty_record "hello" LevelError)
                           ++ trace_events base_handler
                                (Trace_Context {| ID := "abc"; SpanID := ""; Sampled := false |}
                                   Background)
                           ++ take 1 (labels_events
                                        (Trace_Context
                                           {| ID := "abc"; SpanID := ""; Sampled := false |}
                                           Background)))) as Hin.
  { apply list_elem_of_lookup. by exists 8. }
  split; [exact Hin|].
  destruct (NewHandler_prepares_fixed_keys (R := test_runtime) IgnoreWriter
              {| ProjectID := "proj"; Level := None |} emptyHeap)
    as (h & σ' & Hnew & _ & _ & _ & _ & _ & Hkeys).
  rewrite NewHandler_base in Hnew. injection Hnew as <- <-.
  exact (Hkeys _ _ _ Hin).
Defined.

(** ** Labels and the context *)

Lemma labels_of_AddLabels ctx labels :
  labels_of (labelsFromContext (AddLabels ctx labels))
  = labels_of (labelsFromContext ctx) ++ labels.
Proof. done. Qed.

(** X15. Iterate on the labels of a context made by AddLabels visits the labels of
    the parent context first, in their order, and then the added labels in the
    order given; on a context without labels it visits nothing. *)
Theorem AddLabels_appends_to_the_visit ctx labels :
  (∀ (S : Type) (f : Label → S → S) (s : S),
      Iterate (labelsFromContext (AddLabels ctx labels)) f s
      = foldl (λ s label, f label s) (Iterate (labelsFromContext ctx) f s) labels)
  ∧ Iterate (labelsFromContext (AddLabels ctx labels)) (λ label received, received ++ [label]) []
    = Iterate (labelsFromContext ctx) (λ label received, received ++ [label]) [] ++ labels
  ∧ Iterate (labelsFromContext Background) (λ label received, received ++ [label]) [] = [].
Proof.
  split; [done|]. split; [|done].
  rewrite !Iterate_labels_of, labels_of_AddLabels, foldl_app.
  generalize (foldl (λ s label, s ++ [label]) [] (labels_of (labelsFromContext ctx))).
  induction labels as [|label labels IH] using rev_ind; intros acc.
  - by rewrite app_nil_r.
  - by rewrite foldl_app, IH, app_assoc.
Qed.

Lemma obj_map_union fs (m : gmap string Json) :
  foldl (λ m kv, <[kv.1 := kv.2]> m) m fs = obj_map fs ∪ m.
Proof.
  unfold obj_map. revert m. induction fs as [|[k v] fs IH]; intros m; simpl.
  - by rewrite (left_id_L ∅ (∪)).
  - rewrite IH, (IH (<[k:=v]> ∅)). rewrite <-(assoc_L (∪)). f_equal.
    by rewrite <-insert_union_l, (left_id_L ∅ (∪)).
Qed.

(** X16. In the labels object that is written, the labels of an AddLabels call
    override the labels of the parent context with the same key, the last of the
    call's labels with a key wins, and the keys the call does not mention keep
    the parent's value. *)
Theorem AddLabels_shadows ctx labels :
  labels_object (AddLabels ctx labels)
  = obj_map (map label_field labels) ∪ labels_object ctx
  ∧ (∀ key, key ∉ map LabelKey labels →
            labels_object (AddLabels ctx labels) !! key = labels_object ctx !! key)
  ∧ (∀ key value before,
        labels = before ++ [NewLabel key value] →
        labels_object (AddLabels ctx labels) !! key = Some (JString value)).
Proof.
  assert (labels_object (AddLabels ctx labels)
          = obj_map (map label_field labels) ∪ labels_object ctx) as Hu.
  { unfold labels_object. rewrite labels_of_AddLabels, map_app, obj_map_app.
    apply obj_map_union. }
  split; [exact Hu|]. split.
  - intros key Hkey. rewrite Hu, lookup_union.
    assert (obj_map (map label_field labels) !! key = None) as ->.
    { clear Hu. revert Hkey. induction labels as [|label labels IH] using rev_ind; [done|].
      rewrite !map_app, obj_map_app. simpl. intros Hk.
      rewrite lookup_insert_ne.
      - apply IH. intros H. apply Hk, elem_of_app. by left.
      - intros <-. apply Hk, elem_of_app. right. by left. }
    by destruct (labels_object ctx !! key).
  - intros key value before ->. rewrite Hu, lookup_union.
    rewrite map_app, obj_map_app. simpl. rewrite lookup_insert_eq.
    by destruct (labels_object ctx !! key).
Qed.

Lemma AddLabels_shadows_witness :
  ("a" ∉ map LabelKey [NewLabel "b" "9"; NewLabel "c" "3"])
  ∧ [NewLabel "b" "9"; NewLabel "c" "3"] = [NewLabel "b" "9"] ++ [NewLabel "c" "3"]
  ∧ labels_object (AddLabels (AddLabels Background [NewLabel "a" "1"; NewLabel "b" "2"])
                     [NewLabel "b" "9"; NewLabel "c" "3"]) !! "a"
    = labels_object (AddLabels Background [NewLabel "a" "1"; NewLabel "b" "2"]) !! "a"
  ∧ labels_object (AddLabels (AddLabels Background [NewLabel "a" "1"; NewLabel "b" "2"])
                     [NewLabel "b" "9"; NewLabel "c" "3"]) !! "c"
    = Some (JString "3").
Proof.
  assert ("a" ∉ map LabelKey [NewLabel "b" "9"; NewLabel "c" "3"]) as Hnot.
  { simpl. intros H. repeat (apply elem_of_cons in H as [H|H]; [discriminate|]).
    by apply elem_of_nil in H. }
  destruct (AddLabels_shadows (AddLabels Background [NewLabel "a" "1"; NewLabel "b" "2"])
              [NewLabel "b" "9"; NewLabel "c" "3"]) as (_ & Hother & Hlast).
  split; [exact Hnot|]. split; [reflexivity|]. split.
  - apply Hother, Hnot.
  - apply (Hlast "c" "3" [NewLabel "b" "9"]). reflexivity.
Defined.

(** X17. addLabels writes nothing exactly when the context holds no label: not for
    the background context, and not after AddLabels with no labels; when it
    writes, it writes one member, a closed object. *)
Theorem labels_field_only_with_labels {G : Goldjson} h ctx l r :
  (addLabels h ctx l r = l ↔ labels_of (labelsFromContext ctx) = [])
  ∧ addLabels h (AddLabels ctx []) l r = addLabels h ctx l r
  ∧ addLabels h Background l r = l
  ∧ ∃ fs, object_of (labels_events ctx) = Some fs ∧ length fs ≤ 1.
Proof.
  split; [|split; [|split]].
  - rewrite addLabels_spec. unfold labels_events.
    destruct (labels_of (labelsFromContext ctx)) as [|label labels].
    + by rewrite write_nil.
    + split; [|done]. intros H. apply (f_equal (length ∘ lw_buf)) in H.
      simpl in H. rewrite length_app in H. simpl in H. lia.
  - rewrite !addLabels_spec. unfold labels_events.
    by rewrite labels_of_AddLabels, app_nil_r.
  - rewrite addLabels_spec. by rewrite write_nil.
  - exists (labels_fields ctx). split.
    + apply object_of_plain; [|apply labels_renders].
      pose proof (fixed_events_plain (R := test_runtime) h ctx r) as Hp.
      unfold fixed_events in Hp. by apply Forall_app in Hp as [_ [_ Hp]%Forall_app].
    + unfold labels_fields. destruct (labels_of _); simpl; lia.
Qed.

(** X18. The labels and the trace are stored under different context keys: adding
    labels does not change the trace read from the context or what addTrace
    writes, storing a trace does not change the labels or what addLabels writes,
    and a value under any other key changes neither. *)
Theorem labels_and_trace_do_not_interfere ctx labels t name v :
  traceFromContext (AddLabels ctx labels) = traceFromContext ctx
  ∧ labelsFromContext (Trace_Context t ctx) = labelsFromContext ctx
  ∧ traceFromContext (WithValue ctx (foreignKey name) v) = traceFromContext ctx
  ∧ labelsFromContext (WithValue ctx (foreignKey name) v) = labelsFromContext ctx
  ∧ (∀ h l r, addTrace h (AddLabels ctx labels) l r = addTrace h ctx l r)
  ∧ (∀ h l r, addLabels h (Trace_Context t ctx) l r = addLabels h ctx l r).
Proof.
  split; [done|]. split; [done|]. split; [done|]. split; [done|]. split.
  - intros h l r. by rewrite !addTrace_spec.
  - intros h l r. by rewrite !addLabels_spec.
Qed.

(** ** slogtest.ErrorHandler *)

Lemma ErrorHandler_Handle_inv {G : Goldjson} {R : Runtime} σ h ctx r cs err line cs' :
  ErrorHandler_Handle σ h ctx r cs = Some (err, line, cs') →
  Handle σ (eh_inner h) ctx r = Some (err, line)
  ∧ ∃ old, cs !! eh_errorCapture h = Some old
           ∧ cs' = <[eh_errorCapture h := errors_Join [old; err]]> cs.
Proof.
  unfold ErrorHandler_Handle, errorCapture_capture.
  destruct (Handle σ (eh_inner h) ctx r) as [[err0 line0]|]; [|done]. simpl.
  destruct (cs !! eh_errorCapture h) as [old|]; [|done]. simpl.
  intros [= <- <- <-]. split; [done|]. by exists old.
Qed.

Lemma ErrorHandler_Handle_eq {G : Goldjson} {R : Runtime} σ h ctx r cs err line old :
  Handle σ (eh_inner h) ctx r = Some (err, line) →
  cs !! eh_errorCapture h = Some old →
  ErrorHandler_Handle σ h ctx r cs
  = Some (err, line, <[eh_errorCapture h := errors_Join [old; err]]> cs).
Proof.
  intros HH Hold. unfold ErrorHandler_Handle, errorCapture_capture.
  rewrite HH. simpl. by rewrite Hold.
Qed.

(** X19. ErrorHandler.Handle returns the error of the inner handler unchanged and the
    inner handler writes its line as usual; afterwards Err is the join of the
    error captured before and the returned one, and no other capture changes. *)
Theorem ErrorHandler_passes_through {G : Goldjson} {R : Runtime} σ h ctx r cs old :
  valid σ (eh_inner h) → cs !! eh_errorCapture h = Some old →
  ∃ err line cs',
    ErrorHandler_Handle σ h ctx r cs = Some (err, line, cs')
    ∧ Handle σ (eh_inner h) ctx r = Some (err, line)
    ∧ ErrorHandler_Err h cs' = Some (errors_Join [old; err])
    ∧ length cs' = length cs
    ∧ ∀ c, c ≠ eh_errorCapture h → errorCapture_Err c cs' = errorCapture_Err c cs.
Proof.
  intros Hv Hold. destruct (valid_inv σ _ Hv) as (bs & e & Hbs & Hok & He).
  pose proof (Handle_spec σ (eh_inner h) bs e ctx r He Hbs Hok) as HH.
  eexists _, _, _. split; [|split; [exact HH|split; [|split]]].
  - unfold ErrorHandler_Handle, errorCapture_capture. rewrite HH. simpl.
    rewrite Hold. simpl. reflexivity.
  - unfold ErrorHandler_Err, errorCapture_Err.
    apply list_lookup_insert_eq. by eapply lookup_lt_Some.
  - by rewrite length_insert.
  - intros c Hc. unfold errorCapture_Err. by rewrite list_lookup_insert_ne.
Qed.

Lemma ErrorHandler_passes_through_witness :
  valid base_heap (eh_inner {| eh_inner := base_handler; eh_errorCapture := 0 |})
  ∧ [None] !! eh_errorCapture {| eh_inner := base_handler; eh_errorCapture := 0 |}
    = Some (None : error)
  ∧ ∃ err line cs',
      ErrorHandler_Handle (G := test_goldjson) (R := test_runtime) base_heap
        {| eh_inner := base_handler; eh_errorCapture := 0 |} Background
        (with_attrs (empty_record "attrs" LevelError)
           [mkAttr "Erroring" (AnyValue ErroringMarshal)]) [None]
      = Some (err, line, cs')
      ∧ ErrorHandler_Err {| eh_inner := base_handler; eh_errorCapture := 0 |} cs'
        = Some (errors_Join [None; err]).
Proof.
  split; [apply valid_base|]. split; [reflexivity|].
  destruct (ErrorHandler_passes_through (G := test_goldjson) (R := test_runtime) base_heap
              {| eh_inner := base_handler; eh_errorCapture := 0 |} Background
              (with_attrs (empty_record "attrs" LevelError)
                 [mkAttr "Erroring" (AnyValue ErroringMarshal)]) [None] None
              valid_base eq_refl)
    as (err & line & cs' & HH & _ & HErr & _).
  by exists err, line, cs'.
Defined.


(** X20. After any series of Handle calls through handlers that share one capture,
    Err holds the errors captured before followed by the errors of the calls in
    order, and it is nil exactly when it was nil before and every call returned
    nil. *)
Theorem ErrorHandler_accumulates {G : Goldjson} {R : Runtime} σ c calls :
  Forall (λ call, eh_errorCapture call.1.1 = c) calls →
  ∀ cs old errs cs',
    cs !! c = Some old →
    Handle_each σ calls cs = Some (errs, cs') →
    ∃ new,
      errorCapture_Err c cs' = Some new
      ∧ error_leaves new = error_leaves old ++ (errs ≫= error_leaves)
      ∧ (new = None ↔ old = None ∧ Forall (eq None) errs)
      ∧ length errs = length calls.
Proof.
  induction 1 as [|[[h ctx] r] calls Hc _ IH]; intros cs old errs cs' Hold Hall.
  - injection Hall as <- <-. exists old. split; [done|]. split; [by rewrite app_nil_r|].
    split; [|done]. rewrite Forall_nil. tauto.
  - simpl in Hc, Hall. subst c.
    destruct (ErrorHandler_Handle σ h ctx r cs) as [[[err line] cs1]|] eqn:H1; [|done].
    simpl in Hall.
    destruct (Handle_each σ calls cs1) as [[errs1 cs2]|] eqn:H2; [|done].
    injection Hall as <- <-.
    destruct (ErrorHandler_Handle_inv _ _ _ _ _ _ _ _ H1) as (_ & old' & Hold' & ->).
    rewrite Hold in Hold'. injection Hold' as <-.
    destruct (IH _ (errors_Join [old; err]) _ _
                ltac:(apply list_lookup_insert_eq; by eapply lookup_lt_Some) H2)
      as (new & Hnew & Hleaves & Hnil & Hlen).
    exists new. split; [done|]. split; [|split].
    + rewrite Hleaves, errors_Join2_leaves, bind_cons. by rewrite <-app_assoc.
    + rewrite Hnil, errors_Join2_nil, Forall_cons.
      split; [intros [[-> ->] ?]|intros [-> [<- ?]]]; done.
    + simpl. by rewrite Hlen.
Qed.

Lemma ErrorHandler_accumulates_witness :
  let h := {| eh_inner := base_handler; eh_errorCapture := 0 |} in
  let calls := [ (h, Background,
                  with_attrs (empty_record "first" LevelError)
                    [mkAttr "Erroring" (AnyValue ErroringMarshal)]);
                 (h, Background, empty_record "second" LevelInfo) ] in
  Forall (λ call, eh_errorCapture call.1.1 = 0) calls
  ∧ [None] !! 0 = Some (None : error)
  ∧ ∃ errs cs',
      Handle_each (G := test_goldjson) (R := test_runtime) base_heap calls [None]
      = Some (errs, cs')
      ∧ ∃ new, errorCapture_Err 0 cs' = Some new
               ∧ error_leaves new = ["cannot be marshaled"].
Proof.
  intros h calls.
  assert (Forall (λ call, eh_errorCapture call.1.1 = 0) calls) as Hall
    by (repeat constructor).
  split; [exact Hall|]. split; [reflexivity|].
  eexists _, _. split; [vm_compute; reflexivity|].
  destruct (ErrorHandler_accumulates (G := test_goldjson) (R := test_runtime)
              base_heap 0 calls Hall [None] None _ _ eq_refl eq_refl)
    as (new & Hnew & Hleaves & _).
  exists new. split; [exact Hnew|]. rewrite Hleaves. reflexivity.
Defined.


(** X21. A handler derived from an ErrorHandler by WithGroup and WithAttrs keeps the
    capture of the original: an error returned by the derived handler's Handle
    is seen by Err of the original handler, and Enabled answers as before. *)
Theorem derived_ErrorHandlers_share_the_capture {G : Goldjson} {R : Runtime}
    σ h name attrs cs old :
  valid σ (eh_inner h) → cs !! eh_errorCapture h = Some old →
  ∃ hg σ1 ha σ2,
    ErrorHandler_WithGroup h name σ = Some (hg, σ1)
    ∧ ErrorHandler_WithAttrs hg attrs σ1 = Some (ha, σ2)
    ∧ eh_errorCapture ha = eh_errorCapture h
    ∧ (∀ ctx l, ErrorHandler_Enabled ha ctx l = ErrorHandler_Enabled h ctx l)
    ∧ ∀ ctx r, ∃ err line cs',
        ErrorHandler_Handle σ2 ha ctx r cs = Some (err, line, cs')
        ∧ ErrorHandler_Err h cs' = Some (errors_Join [old; err]).
Proof.
  intros Hv Hold. destruct (valid_inv σ _ Hv) as (bs & e & Hbs & Hok & He).
  destruct (derive_spec (byWithGroup name) σ (eh_inner h) bs Hv Hbs)
    as (g & σ1 & f & Hg & _ & Hbg & Hvg & Hcg & _).
  destruct (derive_spec (byWithAttrs attrs) σ1 g _ Hvg Hbg)
    as (a & σ2 & f' & Ha & _ & Hba & Hva & Hca & _).
  simpl in Hg, Ha.
  exists {| eh_inner := g; eh_errorCapture := eh_errorCapture h |}, σ1,
         {| eh_inner := a; eh_errorCapture := eh_errorCapture h |}, σ2.
  split; [|split; [|split; [done|split]]].
  - unfold ErrorHandler_WithGroup, mbind, Go_bind. by rewrite Hg.
  - unfold ErrorHandler_WithAttrs, mbind, Go_bind. simpl. by rewrite Ha.
  - intros ctx l. unfold ErrorHandler_Enabled, Enabled. simpl. by rewrite Hca, Hcg.
  - intros ctx r. destruct (valid_inv σ2 a Hva) as (bsa & ea & Hbsa & Hoka & Hea).
    eexists _, _, _. split.
    + apply (ErrorHandler_Handle_eq σ2
               {| eh_inner := a; eh_errorCapture := eh_errorCapture h |});
        [by apply (Handle_spec σ2 a bsa ea)|exact Hold].
    + unfold ErrorHandler_Err, errorCapture_Err. simpl.
      apply list_lookup_insert_eq. by eapply lookup_lt_Some.
Qed.

Lemma derived_ErrorHandlers_share_the_capture_witness :
  valid base_heap (eh_inner {| eh_inner := base_handler; eh_errorCapture := 0 |})
  ∧ [None] !! eh_errorCapture {| eh_inner := base_handler; eh_errorCapture := 0 |}
    = Some (None : error)
  ∧ ∃ hg σ1 ha σ2,
      ErrorHandler_WithGroup {| eh_inner := base_handler; eh_errorCapture := 0 |} "G"
        base_heap = Some (hg, σ1)
      ∧ ErrorHandler_WithAttrs (G := test_goldjson) hg [mkAttr "Y" (Int64Value 2)] σ1
        = Some (ha, σ2)
      ∧ eh_errorCapture ha = 0.
Proof.
  split; [apply valid_base|]. split; [reflexivity|].
  destruct (derived_ErrorHandlers_share_the_capture
              (G := test_goldjson) (R := test_runtime) base_heap
              {| eh_inner := base_handler; eh_errorCapture := 0 |} "G"
              [mkAttr "Y" (Int64Value 2)] [None] None valid_base eq_refl)
    as (hg & σ1 & ha & σ2 & Hg & Ha & Hc & _).
  by exists hg, σ1, ha, σ2.
Defined.


(** X22. NewErrorHandler wraps the handler with a capture of its own whose Err is nil
    at first; the captures of the handlers made before are unchanged by the call
    and by the Handle calls of the new handler. *)
Theorem NewErrorHandler_starts_empty {G : Goldjson} {R : Runtime} σ inner cs :
  valid σ inner →
  ∃ h cs1,
    NewErrorHandler inner cs = (h, cs1)
    ∧ eh_inner h = inner
    ∧ ErrorHandler_Err h cs1 = Some None
    ∧ ∀ c old,
        cs !! c = Some old →
        errorCapture_Err c cs1 = Some old
        ∧ ∀ ctx r, ∃ err line cs2,
            ErrorHandler_Handle σ h ctx r cs1 = Some (err, line, cs2)
            ∧ errorCapture_Err c cs2 = Some old.
Proof.
  intros Hv. eexists _, _. split; [reflexivity|]. split; [done|]. split.
  - unfold ErrorHandler_Err, errorCapture_Err. simpl. apply lookup_snoc.
  - intros c old Hc.
    assert (errorCapture_Err c (cs ++ [None]) = Some old) as Hc1.
    { unfold errorCapture_Err. by apply lookup_app_l_Some. }
    split; [exact Hc1|]. intros ctx r.
    destruct (valid_inv σ inner Hv) as (bs & e & Hbs & Hok & He).
    eexists _, _, _. split.
    + apply (ErrorHandler_Handle_eq σ
               {| eh_inner := inner; eh_errorCapture := length cs |});
        [by apply (Handle_spec σ inner bs e)|apply lookup_snoc].
    + unfold errorCapture_Err in *. simpl. rewrite list_lookup_insert_ne; [done|].
      apply lookup_lt_Some in Hc. lia.
Qed.

Lemma NewErrorHandler_starts_empty_witness :
  valid base_heap base_handler
  ∧ [Some (errorString "earlier")] !! 0 = Some (Some (errorString "earlier"))
  ∧ ∃ h cs1,
      NewErrorHandler base_handler [Some (errorString "earlier")] = (h, cs1)
      ∧ ErrorHandler_Err h cs1 = Some None
      ∧ errorCapture_Err 0 cs1 = Some (Some (errorString "earlier")).
Proof.
  split; [apply valid_base|]. split; [reflexivity|].
  destruct (NewErrorHandler_starts_empty (G := test_goldjson) (R := test_runtime)
              base_heap base_handler [Some (errorString "earlier")] valid_base)
    as (h & cs1 & Hnew & _ & Hempty & Hold).
  exists h, cs1. split; [exact Hnew|]. split; [exact Hempty|].
  apply (Hold 0 (Some (errorString "earlier")) eq_refl).
Defined.

(** ** The helpers of the tests: requireEqualSlices and Capture *)

Lemma requireEqualSlices_loop_spec {T : Type} `{EqDecision T} (expected received : list T) :
  length expected = length received →
  ∀ m j, j + m = length expected → take j expected = take j received →
    match requireEqualSlices_loop (seq j m) expected received with
    | returned => expected = received
    | fatal_value i =>
        j ≤ i < length expected ∧ take i expected = take i received
        ∧ expected !! i ≠ received !! i
    | _ => False
    end.
Proof.
  intros Hlen. induction m as [|m IH]; intros j Hj Hpre.
  - simpl. rewrite Nat.add_0_r in Hj. subst j.
    rewrite firstn_all in Hpre. by rewrite Hpre, Hlen, firstn_all.
  - simpl.
    destruct (lookup_lt_is_Some_2 expected j) as [e He]; [lia|].
    destruct (lookup_lt_is_Some_2 received j) as [r Hr]; [lia|].
    rewrite He, Hr. case_decide as Hne.
    + split; [lia|]. split; [done|]. rewrite He, Hr. congruence.
    + assert (e = r) as <- by (by destruct (decide (e = r))).
      specialize (IH (S j) ltac:(lia)).
      rewrite (take_S_r _ _ _ He), (take_S_r _ _ _ Hr), Hpre in IH.
      specialize (IH eq_refl).
      destruct (requireEqualSlices_loop (seq (S j) m) expected received); try done.
      destruct IH as ([? ?] & ? & ?). split; [lia|done].
Qed.

(** X23. requireEqualSlices returns without failing the test exactly when the two
    slices are equal; it never indexes out of range, it fails at the length
    check only when the lengths differ, and otherwise it fails at the first
    index where the slices differ. *)
Theorem requireEqualSlices_decides_equality {T : Type} `{EqDecision T}
    (expected received : list T) :
  (requireEqualSlices expected received = returned ↔ expected = received)
  ∧ requireEqualSlices expected received ≠ panicked
  ∧ (∀ n m, requireEqualSlices expected received = fatal_len n m →
            n = length expected ∧ m = length received ∧ n ≠ m)
  ∧ (∀ i, requireEqualSlices expected received = fatal_value i →
          length expected = length received
          ∧ take i expected = take i received
          ∧ expected !! i ≠ received !! i).
Proof.
  unfold requireEqualSlices. case_decide as Hlen.
  - split; [|split; [done|split; [|done]]].
    + split; [done|]. intros ->. done.
    + intros n m [= <- <-]. done.
  - assert (length expected = length received) as Hlen'
      by (destruct (decide (length expected = length received)); done).
    clear Hlen. rename Hlen' into Hlen.
    pose proof (requireEqualSlices_loop_spec expected received Hlen
                  (length expected) 0 eq_refl eq_refl) as Hloop.
    destruct (requireEqualSlices_loop _ expected received) eqn:E;
      [|destruct Hloop| |destruct Hloop].
    + split; [by split|]. split; [done|]. split; done.
    + destruct Hloop as (Hi & Hpre & Hne).
      split; [|split; [done|split; [done|]]].
      * split; [done|]. intros ->. done.
      * intros ? [= <-]. done.
Qed.

Lemma requireEqualSlices_decides_equality_witness :
  requireEqualSlices [NewLabel "k" "1"; NewLabel "k" "2"]
    [NewLabel "k" "1"; NewLabel "k" "3"] = fatal_value 1
  ∧ take 1 [NewLabel "k" "1"; NewLabel "k" "2"] = take 1 [NewLabel "k" "1"; NewLabel "k" "3"]
  ∧ requireEqualSlices [NewLabel "k" "1"] [NewLabel "k" "1"] = returned.
Proof.
  destruct (requireEqualSlices_decides_equality
              [NewLabel "k" "1"; NewLabel "k" "2"] [NewLabel "k" "1"; NewLabel "k" "3"])
    as (_ & _ & _ & Hvalue).
  destruct (requireEqualSlices_decides_equality [NewLabel "k" "1"] [NewLabel "k" "1"])
    as ([_ Heq] & _).
  split; [reflexivity|]. split; [apply (Hvalue 1 eq_refl)|apply Heq; reflexivity].
Defined.

Section CaptureFacts.
Context {T : Type} (Unmarshal : string → T + err).

(** X24. After any series of writes to a Capture, Entries holds the earlier entries
    followed by the entries of the writes that unmarshalled, in the order
    written; each Write returns the length of its data, with the unmarshalling
    error when there is one and nil otherwise. *)
Theorem Capture_keeps_what_unmarshals (datas : list string) (entries : list T) :
  Capture_Entries (Capture_Write_all Unmarshal datas entries).2
  = entries ++ omap (λ data, match Unmarshal data with
                             | inl entry => Some entry
                             | inr _ => None
                             end) datas
  ∧ (Capture_Write_all Unmarshal datas entries).1
    = map (λ data, (String.length data,
                    match Unmarshal data with
                    | inl _ => None
                    | inr e => Some e
                    end)) datas.
Proof.
  revert entries. induction datas as [|data datas IH]; intros entries; simpl.
  - by rewrite app_nil_r.
  - unfold Capture_Write at 1 2.
    specialize (IH (match Unmarshal data with
                    | inl entry => entries ++ [entry]
                    | inr _ => entries
                    end)).
    destruct (Unmarshal data) as [entry|e];
      destruct (Capture_Write_all Unmarshal datas _) as [ress entries'];
      destruct IH as [IH1 IH2]; simpl in *; rewrite IH1, IH2; by rewrite <-?app_assoc.
Qed.
End CaptureFacts.

(** ** What one attribute and the fixed fields write *)

Lemma attr_fields_key {G : Goldjson} a fs :
  attr_fields a = Some fs → Forall (λ kv, kv.1 = Key a) fs ∧ length fs ≤ 1.
Proof.
  destruct a as [key v]. destruct v as [attrs|s|n|n|f|b|d|t|val|kind].
  - destruct attrs as [|a attrs].
    + intros [= <-]. split; [constructor|simpl; lia].
    + rewrite attr_fields_group.
      destruct (attrs_fields (a :: attrs)) as [[|f fs']|]; [done| |done].
      intros [= <-]. split; [by repeat constructor|simpl; lia].
  - intros [= <-]. split; [by repeat constructor|simpl; lia].
  - intros [= <-]. split; [by repeat constructor|simpl; lia].
  - intros [= <-]. split; [by repeat constructor|simpl; lia].
  - intros [= <-]. split; [by repeat constructor|simpl; lia].
  - intros [= <-]. split; [by repeat constructor|simpl; lia].
  - intros [= <-]. split; [by repeat constructor|simpl; lia].
  - simpl. destruct (AddTime_error t); [done|].
    intros [= <-]. split; [by repeat constructor|simpl; lia].
  - simpl. destruct (any_error val), (any_marshaler val);
      try destruct (AddMarshal_error val); try done;
      intros [= <-]; (split; [by repeat constructor|simpl; lia]).
  - intros [= <-]. split; [constructor|simpl; lia].
Qed.

(** X25. addAttr only appends to the line and keeps its writer. Whenever what it
    appended reads back, it is at most one member, under the key of the
    attribute; for an attribute that is not a group and for which addAttr
    returns nil it is exactly one member under that key. *)
Theorem addAttr_writes_one_member {G : Goldjson} a l :
  (addAttr l a).2 = write l (attr_events a)
  ∧ lw_w (addAttr l a).2 = lw_w l
  ∧ lw_buf l `prefix_of` lw_buf (addAttr l a).2
  ∧ (∀ fs, object_of (attr_events a) = Some fs →
           length fs ≤ 1 ∧ Forall (λ kv, kv.1 = Key a) fs)
  ∧ ((∀ attrs, Val a ≠ GroupValue attrs) → (addAttr l a).1 = None →
     ∃ j, object_of (attr_events a) = Some [(Key a, j)]).
Proof.
  rewrite addAttr_spec. simpl. split; [done|]. split; [done|].
  split; [by apply prefix_app_r|]. split.
  - intros fs Hfs. rewrite object_of_attr in Hfs.
    destruct (attr_fields_key a fs Hfs). done.
  - intros Hng Herr. rewrite object_of_attr.
    destruct a as [key v]. simpl in *.
    destruct v as [attrs|s|n|n|f|b|d|t|val|kind].
    + by destruct (Hng attrs).
    + by eexists.
    + by eexists.
    + by eexists.
    + by eexists.
    + by eexists.
    + by eexists.
    + rewrite Herr. by eexists.
    + destruct (any_error val), (any_marshaler val); try rewrite Herr; by eexists.
    + exfalso. done.
Qed.

Lemma addAttr_writes_one_member_witness :
  object_of (G := rejecting_goldjson)
    (attr_events (mkAttr "g" (GroupValue [mkAttr "a" (Int64Value 1);
                                          mkAttr "b" (StringValue "x")])))
  = Some [("g", JObject [("a", JInt64 1); ("b", JString "x")])]
  ∧ length [("g", JObject [("a", JInt64 1); ("b", JString "x")])] ≤ 1
  ∧ (∀ attrs, Val (mkAttr "d" (DurationValue 5)) ≠ GroupValue attrs)
  ∧ (addAttr (G := rejecting_goldjson) (mkLineWriter IgnoreWriter [])
       (mkAttr "d" (DurationValue 5))).1 = None
  ∧ ∃ j, object_of (G := rejecting_goldjson) (attr_events (mkAttr "d" (DurationValue 5)))
         = Some [("d", j)].
Proof.
  split; [reflexivity|]. split.
  - destruct (addAttr_writes_one_member (G := rejecting_goldjson)
                (mkAttr "g" (GroupValue [mkAttr "a" (Int64Value 1);
                                         mkAttr "b" (StringValue "x")]))
                (mkLineWriter IgnoreWriter [])) as (_ & _ & _ & Hone & _).
    by destruct (Hone _ eq_refl).
  - split; [done|]. split; [reflexivity|].
    destruct (addAttr_writes_one_member (G := rejecting_goldjson)
                (mkAttr "d" (DurationValue 5)) (mkLineWriter IgnoreWriter []))
      as (_ & _ & _ & _ & Hscalar).
    by apply Hscalar.
Defined.

(** X26. For a handler without steps and a record without attributes whose timestamp
    the encoder accepts, Handle writes a line that reads back as between four
    and eight members whose keys are all different, beginning with message,
    timestamp, severity and source location. *)
Theorem fixed_field_keys_are_distinct {G : Goldjson} {R : Runtime} σ h ctx r :
  valid σ h → builders σ h [] → r_Attrs r = [] →
  AddTime_error (Time_Round0 (r_Time r)) = None →
  ∃ err line fs,
    Handle σ h ctx r = Some (err, line)
    ∧ object_of line = Some fs
    ∧ NoDup fs.*1
    ∧ take 4 fs.*1 = [fieldMessage; fieldTimestamp; fieldSeverity; fieldSourceLocation]
    ∧ 4 ≤ length fs ≤ 8.
Proof.
  intros Hv Hb Hr Ht. destruct (valid_inv σ h Hv) as (bs & e & Hbs & Hok & He).
  rewrite (builders_inj σ h bs [] Hbs Hb) in Hok.
  exists (errors_Join [pipeline_error σ [] (attrs_error (r_Attrs r));
                       enc_w e (Handle_events h [] ctx r)]),
    (Handle_events h [] ctx r), (fixed_fields h ctx r).
  split; [by apply (Handle_spec σ h [] e)|]. split; [|split; [|split]].
  - unfold Handle_events. rewrite Hr. simpl. rewrite app_nil_r.
    apply object_of_plain; [apply fixed_events_plain|by apply fixed_renders].
  - unfold fixed_fields, head_fields, time_field, trace_fields, labels_fields.
    rewrite Ht.
    destruct (decide _), (labels_of _); try destruct (decide _); simpl;
      repeat (apply NoDup_cons; split;
              [rewrite ?elem_of_cons, elem_of_nil; intros H;
               repeat destruct H as [H|H]; done|]);
      apply NoDup_nil_2.
  - unfold fixed_fields, head_fields, time_field. by rewrite Ht.
  - unfold fixed_fields, head_fields, time_field, trace_fields, labels_fields.
    rewrite Ht.
    destruct (decide _), (labels_of _); try destruct (decide _); simpl; lia.
Qed.

Lemma fixed_field_keys_are_distinct_witness :
  valid base_heap base_handler
  ∧ builders base_heap base_handler []
  ∧ r_Attrs (empty_record "hello" LevelInfo) = []
  ∧ AddTime_error (Goldjson := test_goldjson)
      (Time_Round0 (r_Time (empty_record "hello" LevelInfo))) = None
  ∧ ∃ err line fs,
      Handle (G := test_goldjson) (R := test_runtime) base_heap base_handler
        (AddLabels (Trace_Context {| ID := "abc"; SpanID := "s"; Sampled := true |}
                      Background) [NewLabel "k" "v"])
        (empty_record "hello" LevelInfo) = Some (err, line)
      ∧ object_of (G := test_goldjson) line = Some fs
      ∧ NoDup fs.*1.
Proof.
  split; [apply valid_base|]. split; [apply builders_base|].
  split; [reflexivity|]. split; [reflexivity|].
  destruct (fixed_field_keys_are_distinct (G := test_goldjson) (R := test_runtime)
              base_heap base_handler
              (AddLabels (Trace_Context {| ID := "abc"; SpanID := "s"; Sampled := true |}
                            Background) [NewLabel "k" "v"])
              (empty_record "hello" LevelInfo) valid_base builders_base eq_refl eq_refl)
    as (err & line & fs & HH & Hobj & Hnd & _).
  by exists err, line, fs.
Defined.
